(** * files-to-prompt: signature and docstring extraction

    A shallow embedding of [extract_signatures_and_docstrings] of
    [files_to_prompt/cli.py] and of its two local helpers, [get_signature]
    and [normalize_docstring], together with the Python built-ins they call
    ([str.splitlines], [str.lstrip], [str.rstrip], [str.strip], [str.find],
    [str.endswith], [str.join], list indexing).

    A Python [str] is a sequence of Unicode code points: it is modelled as a
    list of code points.  Python integers are unbounded: they are [Z].
    Lengths are [nat]. *)

From Stdlib Require Import String Ascii List ZArith NArith Lia Bool.
From Stdlib Require Import Sorted Btauto.
Import ListNotations.
Local Open Scope Z_scope.

(** ** Strings *)

Module PyStr.

(** A character is its code point. *)
Definition char : Type := N.
Definition str : Type := list char.

(** Literals are written as Rocq strings (one byte, one code point). *)
Definition lit (s : string) : str :=
  map N_of_ascii (list_ascii_of_string s).

Definition SPACE : char := 32%N.
Definition TAB : char := 9%N.
Definition LF : char := 10%N.
Definition CR : char := 13%N.
Definition COLON : char := 58%N.
Definition LPAREN : char := 40%N.

Definition in_range (lo hi c : N) : bool := ((lo <=? c) && (c <=? hi))%N.

(** [str.isspace] on one character: general category Zs, or bidirectional
    class WS, B or S. *)
Definition isspace (c : char) : bool :=
  in_range 9 13 c || in_range 28 32 c || (c =? 133)%N || (c =? 160)%N
  || (c =? 5760)%N || in_range 8192 8202 c || (c =? 8232)%N || (c =? 8233)%N
  || (c =? 8239)%N || (c =? 8287)%N || (c =? 12288)%N.

(** The line boundaries of [str.splitlines]. *)
Definition is_linebreak (c : char) : bool :=
  in_range 10 13 c || in_range 28 30 c || (c =? 133)%N
  || (c =? 8232)%N || (c =? 8233)%N.

(** [' ' * n]: a negative count gives the empty string. *)
Definition spaces (n : Z) : str := repeat SPACE (Z.to_nat n).

(** [s.lstrip()] *)
Fixpoint lstrip (s : str) : str :=
  match s with
  | [] => []
  | c :: s' => if isspace c then lstrip s' else s
  end.

(** [s.rstrip()] *)
Definition rstrip (s : str) : str := rev (lstrip (rev s)).

(** [s.strip()] *)
Definition strip (s : str) : str := rstrip (lstrip s).

(** Truth value of a string: non-empty. *)
Definition truthy (s : str) : bool :=
  match s with [] => false | _ :: _ => true end.

(** [s.endswith(c)] for a one-character suffix. *)
Definition endswith (s : str) (c : char) : bool :=
  match rev s with
  | [] => false
  | d :: _ => (d =? c)%N
  end.

(** [s.find(c)] for a one-character needle: the least index, or -1. *)
Fixpoint find (s : str) (c : char) : Z :=
  match s with
  | [] => -1
  | d :: s' =>
      if (d =? c)%N then 0
      else let r := find s' c in if r =? -1 then -1 else r + 1
  end.

(** [s.replace('\t', '    ')] *)
Definition replace_tabs (s : str) : str :=
  flat_map (fun c => if (c =? TAB)%N then repeat SPACE 4 else [c]) s.

(** [sep.join(parts)] *)
Fixpoint join (sep : str) (parts : list str) : str :=
  match parts with
  | [] => []
  | [p] => p
  | p :: ps => p ++ sep ++ join sep ps
  end.

(** [s.splitlines()]: a line ends at a line boundary, CR LF counts as one
    boundary, and no empty line is reported after a final boundary. *)
Fixpoint splitlines (s : str) : list str :=
  match s with
  | [] => []
  | c :: s' =>
      if is_linebreak c then
        [] :: (if (c =? CR)%N
               then match s' with
                    | d :: s'' => if (d =? LF)%N then splitlines s''
                                  else splitlines s'
                    | [] => splitlines s'
                    end
               else splitlines s')
      else match splitlines s' with
           | [] => [[c]]
           | l :: ls => (c :: l) :: ls
           end
  end.

(** [len(s) - len(s.lstrip())] *)
Definition leading_ws (s : str) : nat :=
  (length s - length (lstrip s))%nat.

(** [s[n:]] for [n >= 0] *)
Definition slice_from (n : nat) (s : str) : str := skipn n s.

End PyStr.
Import PyStr.

(** ** Results of Python computations *)

(** An instance of (a subclass of) [Exception]; [exn_msg] is [str(e)]. *)
Record exn : Type := Exn { exn_class : string; exn_msg : str }.

(** A computation returns, raises, or is cut off by the bound put on a
    [while] loop ([Diverge]); the theorems show the last never happens. *)
Inductive res (A : Type) : Type :=
| Ok (a : A)
| Raise (e : exn)
| Diverge.
Arguments Ok {A} a.
Arguments Raise {A} e.
Arguments Diverge {A}.

Definition bind {A B : Type} (m : res A) (k : A -> res B) : res B :=
  match m with
  | Ok a => k a
  | Raise e => Raise e
  | Diverge => Diverge
  end.

Notation "x <- m ;; k" := (bind m (fun x => k))
  (at level 61, m at next level, right associativity).

(** A call into the standard library returns or raises. *)
Inductive lib (A : Type) : Type :=
| Returned (a : A)
| Raised (e : exn).
Arguments Returned {A} a.
Arguments Raised {A} e.

Definition call {A : Type} (r : lib A) : res A :=
  match r with
  | Returned a => Ok a
  | Raised e => Raise e
  end.

Definition IndexError : exn :=
  Exn "IndexError" (lit "list index out of range").

(** [l[i]] on a Python list: negative indices count from the end, anything
    out of range raises [IndexError]. *)
Definition getitem {A : Type} (l : list A) (i : Z) : res A :=
  let n := Z.of_nat (length l) in
  let j := if i <? 0 then i + n else i in
  if (j <? 0) || (n <=? j) then Raise IndexError
  else match nth_error l (Z.to_nat j) with
       | Some a => Ok a
       | None => Raise IndexError
       end.

(** ** The syntax tree, as far as the extraction reads it *)

Inductive node_kind : Type :=
| FunctionDef
| AsyncFunctionDef
| ClassDef
| OtherStmt.

(** [lineno] is [node.lineno], [docstring] is [ast.get_docstring(node)]
    ([None] when there is none), [body] is [node.body]. *)
#[local] Unset Elimination Schemes.
Inductive node : Type :=
| Node (kind : node_kind) (lineno : Z) (docstring : option str)
       (body : list node).
#[local] Set Elimination Schemes.

Definition kind (n : node) : node_kind := let 'Node k _ _ _ := n in k.
Definition lineno (n : node) : Z := let 'Node _ l _ _ := n in l.
Definition docstring (n : node) : option str := let 'Node _ _ d _ := n in d.
Definition body (n : node) : list node := let 'Node _ _ _ b := n in b.

Definition is_FunctionDef (n : node) : bool :=
  match kind n with FunctionDef => true | _ => false end.
Definition is_ClassDef (n : node) : bool :=
  match kind n with ClassDef => true | _ => false end.

(** ** [get_signature] *)

Section GetSignature.

Variable source_lines : list str.

(** The body of the [while] loop from [next_line = source_lines[line_index]]
    to the value appended to [signature_lines]. *)
Definition continuation_line (parent_indentation : Z) (first_line next_line : str)
  : str :=
  if parent_indentation >? 0 then
    let first_line_stripped := lstrip first_line in
    let paren_pos := find first_line_stripped LPAREN in
    if negb (paren_pos =? -1) then
      let align_pos := parent_indentation + paren_pos + 1 in
      let next_line_content := lstrip next_line in
      spaces align_pos ++ next_line_content
    else
      spaces (parent_indentation + 4) ++ lstrip next_line
  else next_line.

(** The [while] loop, bounded by [fuel] iterations. *)
Fixpoint signature_loop (fuel : nat) (parent_indentation : Z) (first_line : str)
    (line_index : Z) (signature_lines : list str) : res (list str) :=
  match fuel with
  | O => Diverge
  | S fuel' =>
      last_line <- getitem signature_lines (-1) ;;
      if endswith (rstrip last_line) COLON then Ok signature_lines
      else
        let line_index := line_index + 1 in
        if line_index >=? Z.of_nat (length source_lines) then Ok signature_lines
        else
          next_line <- getitem source_lines line_index ;;
          let next_line := continuation_line parent_indentation first_line next_line in
          signature_loop fuel' parent_indentation first_line line_index
                         (signature_lines ++ [next_line])
  end.

(** The list [signature_lines] when the loop is left.  The loop adds one to
    [line_index] at every turn and stops when it reaches
    [len(source_lines)], which bounds the number of turns. *)
Definition get_signature_lines (lineno : Z) (parent_indentation : Z)
  : res (list str) :=
  let line_index := lineno - 1 in
  line <- getitem source_lines line_index ;;
  let current_indentation := leading_ws line in
  let first_line :=
    if parent_indentation >? 0
    then spaces parent_indentation ++ lstrip line
    else line in
  let signature_lines := [first_line] in
  signature_loop (S (Z.to_nat (Z.of_nat (length source_lines) - line_index)))
                 parent_indentation first_line line_index signature_lines.

Definition get_signature (n : node) (parent_indentation : Z) : res str :=
  signature_lines <- get_signature_lines (lineno n) parent_indentation ;;
  Ok (join [LF] signature_lines).

End GetSignature.

(** ** [normalize_docstring] *)

(** [min(min_indent, curr_indent)] where [min_indent] starts as
    [float('inf')], written [None]. *)
Definition min_inf (min_indent : option nat) (curr_indent : nat) : option nat :=
  match min_indent with
  | None => Some curr_indent
  | Some m => Some (Nat.min m curr_indent)
  end.

(** The first [for] loop of [normalize_docstring]. *)
Definition min_indent_loop (lines_tail : list str) : option nat :=
  fold_left
    (fun min_indent line =>
       if truthy (strip line)
       then let curr_indent := leading_ws line in min_inf min_indent curr_indent
       else min_indent)
    lines_tail None.

(** The second [for] loop of [normalize_docstring]. *)
Definition normalized_loop (indentation : Z) (min_indent : nat)
    (lines_tail : list str) (normalized : list str) : list str :=
  fold_left
    (fun normalized line =>
       if truthy (strip line)
       then normalized ++ [spaces indentation ++ slice_from min_indent line]
       else normalized ++ [[]])
    lines_tail normalized.

Definition normalize_docstring (docstring : str) (indentation : Z)
  : res (option str) :=
  if negb (truthy docstring) then Ok None
  else
    let lines := splitlines docstring in
    if (length lines =? 1)%nat then Ok (Some docstring)
    else
      let min_indent := min_indent_loop (tl lines) in
      let min_indent :=
        match min_indent with None => 0%nat | Some m => m end in
      first <- getitem lines 0 ;;
      let normalized := [first] in
      let normalized := normalized_loop indentation min_indent (tl lines) normalized in
      Ok (Some (join [LF] normalized)).

(** ** [extract_signatures_and_docstrings] *)

(** A [for] loop whose body may raise. *)
Fixpoint for_each {A S : Type} (l : list A) (body : S -> A -> res S) (s : S)
  : res S :=
  match l with
  | [] => Ok s
  | a :: l' => s' <- body s a ;; for_each l' body s'
  end.

(** Three double quotes. *)
Definition TRIPLE_QUOTE : str := repeat 34%N 3.

(** An f-string field: [None] prints as its name. *)
Definition fmt (v : option str) : str :=
  match v with Some s => s | None => lit "None" end.

(** Truth value of the result of [ast.get_docstring]. *)
Definition doc_truthy (d : option str) : bool :=
  match d with Some s => truthy s | None => false end.

Definition doc_text (d : option str) : str :=
  match d with Some s => s | None => [] end.

Section Extraction.

(** [open(file_path, 'r')] followed by [f.read()]. *)
Variable open_read : str -> lib str.
(** [ast.parse(source).body]. *)
Variable ast_parse : str -> lib (list node).

(** One turn of the loop over a class body. *)
Definition process_item (source_lines : list str) (results : list str)
    (item : node) : res (list str) :=
  if is_FunctionDef item then
    method_sig <- get_signature source_lines item 4 ;;
    let method_docstring := docstring item in
    if doc_truthy method_docstring then
      method_docstring <- normalize_docstring (doc_text method_docstring) 8 ;;
      Ok (results ++ [method_sig ++ [LF] ++ lit "        " ++ TRIPLE_QUOTE
                        ++ fmt method_docstring ++ TRIPLE_QUOTE])
    else Ok (results ++ [method_sig])
  else Ok results.

(** One turn of the loop over the module body. *)
Definition process_node (source_lines : list str) (results : list str)
    (n : node) : res (list str) :=
  if is_FunctionDef n then
    signature <- get_signature source_lines n 0 ;;
    let docstring := docstring n in
    if doc_truthy docstring then
      docstring <- normalize_docstring (doc_text docstring) 4 ;;
      Ok (results ++ [signature ++ [LF] ++ lit "    " ++ TRIPLE_QUOTE
                        ++ fmt docstring ++ TRIPLE_QUOTE])
    else Ok (results ++ [signature])
  else if is_ClassDef n then
    class_sig <- get_signature source_lines n 0 ;;
    let class_docstring := docstring n in
    class_entry <-
      (if doc_truthy class_docstring then
         class_docstring <- normalize_docstring (doc_text class_docstring) 4 ;;
         Ok (class_sig ++ [LF] ++ lit "    " ++ TRIPLE_QUOTE
               ++ fmt class_docstring ++ TRIPLE_QUOTE)
       else Ok class_sig) ;;
    let results := results ++ [class_entry] in
    for_each (body n) (process_item source_lines) results
  else Ok results.

(** The list [results] after the loop over [module.body]. *)
Definition collect_results (source_lines : list str) (module_body : list node)
  : res (list str) :=
  for_each module_body (process_node source_lines) [].

(** The body of the [try] statement. *)
Definition try_body (file_path : str) : res str :=
  source <- call (open_read file_path) ;;
  let source := replace_tabs source in
  module_body <- call (ast_parse source) ;;
  let source_lines := splitlines source in
  results <- collect_results source_lines module_body ;;
  Ok (join [LF; LF] results).

Definition error_message (file_path : str) (e : exn) : str :=
  lit "Error extracting signatures from " ++ file_path ++ lit ": " ++ exn_msg e.

(** [try: ... except Exception as e: return f"..."]. *)
Definition extract_signatures_and_docstrings (file_path : str) : res str :=
  match try_body file_path with
  | Ok text => Ok text
  | Raise e => Ok (error_message file_path e)
  | Diverge => Diverge
  end.

End Extraction.

(** ** Reference definitions used in the statements *)

(** The loop test of [get_signature] on one line. *)
Definition ends_colon (s : str) : bool := endswith (rstrip s) COLON.

(** The lines of [ls] up to and including the first one whose right-trimmed
    text ends with a colon; all of [ls] when there is none. *)
Fixpoint until_colon (ls : list str) : list str :=
  match ls with
  | [] => []
  | x :: ls' => x :: (if ends_colon x then [] else until_colon ls')
  end.

(** The lines appended by the loop, read off the lines that follow the
    starting line: each is rendered by [f] and the rendered text is tested. *)
Fixpoint rest_lines (f : str -> str) (ls : list str) : list str :=
  match ls with
  | [] => []
  | x :: ls' => f x :: (if ends_colon (f x) then [] else rest_lines f ls')
  end.

(** The first line of a header as [get_signature] renders it. *)
Definition first_line_of (parent_indentation : Z) (line : str) : str :=
  if parent_indentation >? 0
  then spaces parent_indentation ++ lstrip line
  else line.

(** The header rendered from the source lines it is made of. *)
Definition render_header (parent_indentation : Z) (ls : list str) : list str :=
  match ls with
  | [] => []
  | line :: xs =>
      let first_line := first_line_of parent_indentation line in
      first_line :: map (continuation_line parent_indentation first_line) xs
  end.

(** The header read off the lines from the starting line on. *)
Definition header_lines (parent_indentation : Z) (ls : list str) : list str :=
  match ls with
  | [] => []
  | line :: rest =>
      let first_line := first_line_of parent_indentation line in
      first_line ::
        (if ends_colon first_line then []
         else rest_lines (continuation_line parent_indentation first_line) rest)
  end.

(** A line counts as non-empty when stripping it leaves something: the test
    [if line.strip()] of [normalize_docstring]. *)
Definition nonempty_line (line : str) : bool := truthy (strip line).

(** What [normalize_docstring] makes of a line after the first. *)
Definition normalized_line (indentation : Z) (min_indent : nat) (line : str)
  : str :=
  if nonempty_line line
  then spaces indentation ++ slice_from min_indent line
  else [].

(** [m] is the least leading-whitespace width of the non-empty lines of
    [ls], and 0 when [ls] has no non-empty line. *)
Definition is_min_indent (m : nat) (ls : list str) : Prop :=
  (forall l, In l ls -> nonempty_line l = true -> (m <= leading_ws l)%nat)
  /\ ((exists l, In l ls /\ nonempty_line l = true /\ leading_ws l = m)
      \/ ((forall l, In l ls -> nonempty_line l = false) /\ m = 0%nat)).

(** One turn of the first loop of [normalize_docstring]. *)
Definition min_step (min_indent : option nat) (line : str) : option nat :=
  if nonempty_line line then min_inf min_indent (leading_ws line)
  else min_indent.

(** A list of lines without its last line when that line is empty. *)
Fixpoint drop_last_empty (L : list str) : list str :=
  match L with
  | [] => []
  | [p] => match p with [] => [] | _ => [p] end
  | p :: ps => p :: drop_last_empty ps
  end.

(** A string without line boundary. *)
Definition single_line (s : str) : bool :=
  forallb (fun c => negb (is_linebreak c)) s.

(** The block of one declaration: its header at [parent_indentation], then,
    when it has documentation, the normalized documentation between triple
    quotes, one level deeper. *)
Definition render_block (source_lines : list str) (parent_indentation : Z)
    (n : node) : res str :=
  signature <- get_signature source_lines n parent_indentation ;;
  if doc_truthy (docstring n) then
    doc <- normalize_docstring (doc_text (docstring n)) (parent_indentation + 4) ;;
    Ok (signature ++ [LF] ++ spaces (parent_indentation + 4) ++ TRIPLE_QUOTE
          ++ fmt doc ++ TRIPLE_QUOTE)
  else Ok signature.

(** The declarations the extraction renders, in the order of the source,
    each with the indentation of its header: the functions and classes of
    the module body, each class followed by the functions of its body. *)
Definition locate (module_body : list node) : list (Z * node) :=
  flat_map
    (fun n =>
       if is_FunctionDef n then [(0, n)]
       else if is_ClassDef n then
         (0, n) :: map (fun item => (4, item)) (filter is_FunctionDef (body n))
       else [])
    module_body.

Definition render_located (source_lines : list str) (p : Z * node) : res str :=
  render_block source_lines (fst p) (snd p).

(** A module body without its [async def] declarations, at module level and
    in the bodies one level down. *)
Definition is_async (n : node) : bool :=
  match kind n with AsyncFunctionDef => true | _ => false end.

Definition without_async_items (items : list node) : list node :=
  filter (fun n => negb (is_async n)) items.

Definition without_async (module_body : list node) : list node :=
  map (fun n => Node (kind n) (lineno n) (docstring n)
                     (without_async_items (body n)))
      (without_async_items module_body).

Definition lib_map {A B : Type} (f : A -> B) (r : lib A) : lib B :=
  match r with
  | Returned a => Returned (f a)
  | Raised e => Raised e
  end.

(** Running a computation on every element of a list, in order. *)
Fixpoint mapM {A B : Type} (f : A -> res B) (l : list A) : res (list B) :=
  match l with
  | [] => Ok []
  | a :: l' => b <- f a ;; bs <- mapM f l' ;; Ok (b :: bs)
  end.

(** ** A small file, used to run the definitions *)

Module Example.

(** A class with a docstring and a method whose header spans two lines,
    then an [async def], then a function. *)
Definition lines : list str :=
  [ lit "class A:";
    lit "    " ++ TRIPLE_QUOTE ++ lit "Doc." ++ TRIPLE_QUOTE;
    lit "    def m(self,";
    lit "            x):";
    lit "        " ++ TRIPLE_QUOTE ++ lit "first";
    lit "          more";
    lit "        less" ++ TRIPLE_QUOTE;
    lit "        pass";
    lit "async def g(): pass";
    lit "def f(a, b):";
    lit "    pass" ].

Definition source : str := join [LF] lines.

Definition method_m : node :=
  Node FunctionDef 3
       (Some (lit "first" ++ [LF] ++ lit "  more" ++ [LF] ++ lit "less"))
       [Node OtherStmt 5 None []; Node OtherStmt 8 None []].

Definition module_body : list node :=
  [ Node ClassDef 1 (Some (lit "Doc.")) [Node OtherStmt 2 None []; method_m];
    Node AsyncFunctionDef 9 None [Node OtherStmt 9 None []];
    Node FunctionDef 10 None [Node OtherStmt 11 None []] ].

Definition open_read (path : str) : lib str := Returned source.
Definition ast_parse (text : str) : lib (list node) := Returned module_body.

(** A header that the end of the file cuts short. *)
Definition cut_lines : list str := [lit "def f(a,"; lit "      b"].

(** A file that cannot be opened. *)
Definition open_denied (path : str) : lib str :=
  Raised (Exn "PermissionError" (lit "[Errno 13] Permission denied: 'x.py'")).

End Example.

(** * The rest of the command line tool *)

(** ** More built-ins *)

(** The decimal digit [d], for [d < 10]. *)
Definition digit_char (d : nat) : char := N.of_nat (48 + d).

(** [str(n)] for a natural number, most significant digit first; [fuel]
    bounds the number of digits. *)
Fixpoint digits_fuel (fuel n : nat) : str :=
  match fuel with
  | O => []
  | S fuel' =>
      if (n <? 10)%nat then [digit_char n]
      else digits_fuel fuel' (n / 10) ++ [digit_char (n mod 10)]
  end.

Definition str_of_nat (n : nat) : str := digits_fuel (S n) n.

(** [str(z)] for an integer. *)
Definition str_of_int (z : Z) : str :=
  if z <? 0 then lit "-" ++ str_of_nat (Z.to_nat (- z))
  else str_of_nat (Z.to_nat z).

(** The value of a string of decimal digits, [None] when a character is
    not a digit: what [int(s)] reads. *)
Definition digit_value (c : char) : option nat :=
  if in_range 48 57 c then Some (N.to_nat c - 48)%nat else None.

Fixpoint nat_of_digits (acc : nat) (s : str) : option nat :=
  match s with
  | [] => Some acc
  | c :: s' =>
      match digit_value c with
      | Some d => nat_of_digits (10 * acc + d) s'
      | None => None
      end
  end.

(** [f"{n:{width}}"] for an integer: right-aligned, filled with spaces, never
    cut. *)
Definition format_width (width : nat) (n : nat) : str :=
  let text := str_of_nat n in
  repeat SPACE (width - length text) ++ text.

(** [enumerate(l)] *)
Definition enumerate {A : Type} (l : list A) : list (nat * A) :=
  combine (seq 0 (length l)) l.

(** [s.startswith(prefix)] *)
Fixpoint startswith (s prefix : str) : bool :=
  match prefix, s with
  | [], _ => true
  | _ :: _, [] => false
  | p :: prefix', c :: s' => (c =? p)%N && startswith s' prefix'
  end.

(** [s.endswith(suffix)] *)
Definition endswith_str (s suffix : str) : bool :=
  startswith (rev s) (rev suffix).

(** [needle in s] *)
Fixpoint contains (s needle : str) : bool :=
  startswith s needle
  || match s with
     | [] => false
     | _ :: s' => contains s' needle
     end.

(** [s.split(sep)] for a non-empty separator: [skip] counts the characters
    of a separator still to pass over, [cur] is the piece being read. *)
Fixpoint split_go (sep s : str) (skip : nat) (cur : str) : list str :=
  match s with
  | [] => [cur]
  | c :: s' =>
      match skip with
      | S k => split_go sep s' k cur
      | O =>
          if startswith s sep
          then cur :: split_go sep s' (length sep - 1) []
          else split_go sep s' 0 (cur ++ [c])
      end
  end.

Definition split (s sep : str) : list str := split_go sep s 0 [].

(** [s.split()]: the maximal runs of characters that are not whitespace. *)
Fixpoint split_ws_go (s cur : str) : list str :=
  match s with
  | [] => if truthy cur then [cur] else []
  | c :: s' =>
      if isspace c
      then (if truthy cur then cur :: split_ws_go s' [] else split_ws_go s' [])
      else split_ws_go s' (cur ++ [c])
  end.

Definition split_ws (s : str) : list str := split_ws_go s [].

(** [s.rfind(c)] for a one-character needle: the greatest index, or -1. *)
Fixpoint rfind_go (s : str) (c : char) (i : Z) (found : Z) : Z :=
  match s with
  | [] => found
  | d :: s' => rfind_go s' c (i + 1) (if (d =? c)%N then i else found)
  end.

Definition rfind (s : str) (c : char) : Z := rfind_go s c 0 (-1).

Definition SLASH : char := 47%N.
Definition DOT : char := 46%N.
Definition HASH : char := 35%N.
Definition BACKTICK : char := 96%N.
Definition NUL : char := 0%N.

(** [os.path.basename(p)] on POSIX: [p[p.rfind('/') + 1:]]. *)
Definition basename (p : str) : str :=
  let i := rfind p SLASH + 1 in
  skipn (Z.to_nat i) p.

(** [os.path.join(a, b)] on POSIX. *)
Definition path_join (a b : str) : str :=
  if startswith b [SLASH] then b
  else if negb (truthy a) || endswith_str a [SLASH] then a ++ b
  else a ++ [SLASH] ++ b.

(** ** [add_line_numbers] *)

Definition add_line_numbers (content : str) : str :=
  let lines := splitlines content in
  let padding := length (str_of_nat (length lines)) in
  let numbered_lines :=
    map (fun '(i, line) => format_width padding (i + 1) ++ lit "  " ++ line)
        (enumerate lines) in
  join [LF] numbered_lines.

(** ** The printers *)

(** Equality of strings. *)
Fixpoint str_eqb (s t : str) : bool :=
  match s, t with
  | [], [] => true
  | c :: s', d :: t' => (c =? d)%N && str_eqb s' t'
  | _, _ => false
  end.

(** [d.get(key, default)] on a dictionary given by its items. *)
Fixpoint dict_get (d : list (str * str)) (key default : str) : str :=
  match d with
  | [] => default
  | (k, v) :: d' => if str_eqb k key then v else dict_get d' key default
  end.

Definition EXT_TO_LANG : list (str * str) :=
  [ (lit "py", lit "python");
    (lit "c", lit "c");
    (lit "cpp", lit "cpp");
    (lit "java", lit "java");
    (lit "js", lit "javascript");
    (lit "ts", lit "typescript");
    (lit "html", lit "html");
    (lit "css", lit "css");
    (lit "xml", lit "xml");
    (lit "json", lit "json");
    (lit "yaml", lit "yaml");
    (lit "yml", lit "yaml");
    (lit "sh", lit "bash");
    (lit "rb", lit "ruby") ].

(** What the printers act on: the strings passed to [writer], oldest first,
    and the counter [global_index]. *)
Record printer_state : Type :=
  { written : list str; global_index : Z }.

(** One call of [writer]. *)
Definition writer (s : str) (st : printer_state) : printer_state :=
  {| written := written st ++ [s]; global_index := global_index st |}.

Definition print_default (path content : str) (line_numbers : bool)
    (st : printer_state) : printer_state :=
  let st := writer path st in
  let st := writer (lit "---") st in
  let content := if line_numbers then add_line_numbers content else content in
  let st := writer content st in
  let st := writer [] st in
  writer (lit "---") st.

Definition QUOTE : char := 34%N.

Definition print_as_xml (path content : str) (line_numbers : bool)
    (st : printer_state) : printer_state :=
  let st := writer (lit "<document index=" ++ [QUOTE]
                      ++ str_of_int (global_index st) ++ [QUOTE] ++ lit ">") st in
  let st := writer (lit "<source>" ++ path ++ lit "</source>") st in
  let st := writer (lit "<document_content>") st in
  let content := if line_numbers then add_line_numbers content else content in
  let st := writer content st in
  let st := writer (lit "</document_content>") st in
  let st := writer (lit "</document>") st in
  {| written := written st; global_index := global_index st + 1 |}.

Definition SIGNATURES_ONLY : str := lit " (signatures only)".

(** The loop [while backticks in content: backticks += "`"], bounded by
    [fuel] turns. *)
Fixpoint backticks_loop (fuel : nat) (content backticks : str) : res str :=
  match fuel with
  | O => Diverge
  | S fuel' =>
      if contains content backticks
      then backticks_loop fuel' content (backticks ++ [BACKTICK])
      else Ok backticks
  end.

(** A run of backticks longer than the content is not in it, which bounds
    the loop. *)
Definition print_as_markdown (path content : str) (line_numbers : bool)
    (st : printer_state) : res printer_state :=
  let file_path := path in
  file_path <-
    (if contains path SIGNATURES_ONLY
     then getitem (split path SIGNATURES_ONLY) 0
     else Ok file_path) ;;
  extension <- getitem (split file_path [DOT]) (-1) ;;
  let lang := dict_get EXT_TO_LANG extension [] in
  let backticks := lit "```" in
  backticks <- backticks_loop (S (length content)) content backticks ;;
  let st := writer path st in
  let st := writer (backticks ++ lang) st in
  let content := if line_numbers then add_line_numbers content else content in
  let st := writer content st in
  Ok (writer backticks st).

Definition print_path (path content : str) (cxml markdown line_numbers : bool)
    (st : printer_state) : res printer_state :=
  if cxml then Ok (print_as_xml path content line_numbers st)
  else if markdown then print_as_markdown path content line_numbers st
  else Ok (print_default path content line_numbers st).

(** ** [read_paths_from_stdin] *)

(** [stdin_isatty] is [sys.stdin.isatty()], [stdin_content] is what
    [sys.stdin.read()] returns. *)
Definition read_paths_from_stdin (stdin_isatty : bool) (stdin_content : str)
    (use_null_separator : bool) : list str :=
  if stdin_isatty then []
  else
    let paths :=
      if use_null_separator then split stdin_content [NUL]
      else split_ws stdin_content in
    filter truthy paths.

(** ** [should_ignore] and [read_gitignore] *)

Section Ignore.

(** [fnmatch.fnmatch(name, pattern)] *)
Variable fnmatch : str -> str -> bool.
(** [os.path.isdir(path)] *)
Variable isdir : str -> bool.
(** [os.path.isfile(path)] *)
Variable isfile : str -> bool.
(** The lines of a text file, as iterating over the open file gives them. *)
Variable open_lines : str -> lib (list str).

Fixpoint should_ignore (path : str) (gitignore_rules : list str) : bool :=
  match gitignore_rules with
  | [] => false
  | rule :: rules =>
      if fnmatch (basename path) rule then true
      else if isdir path && fnmatch (basename path ++ [SLASH]) rule then true
      else should_ignore path rules
  end.

Definition read_gitignore (path : str) : res (list str) :=
  let gitignore_path := path_join path (lit ".gitignore") in
  if isfile gitignore_path then
    lines <- call (open_lines gitignore_path) ;;
    Ok (map strip
            (filter (fun line =>
                       truthy (strip line) && negb (startswith line [HASH]))
                    lines))
  else Ok [].

End Ignore.

(** ** [process_path] *)

(** [sorted(l)] on strings: ascending by code points, a proper prefix
    first. *)
Fixpoint str_leb (s t : str) : bool :=
  match s, t with
  | [], _ => true
  | _ :: _, [] => false
  | c :: s', d :: t' => (c <? d)%N || ((c =? d)%N && str_leb s' t')
  end.

Fixpoint insert_sorted (x : str) (l : list str) : list str :=
  match l with
  | [] => [x]
  | y :: l' => if str_leb x y then x :: l else y :: insert_sorted x l'
  end.

Definition sorted (l : list str) : list str :=
  fold_right insert_sorted [] l.

(** What a run acts on: the printers' state and the warnings sent to the
    standard error stream through [click.echo(..., err=True)], oldest
    first. *)
Record run_state : Type :=
  { printer : printer_state; warnings : list str }.

Definition warn (message : str) (st : run_state) : run_state :=
  {| printer := printer st; warnings := warnings st ++ [message] |}.

Definition is_UnicodeDecodeError (e : exn) : bool :=
  String.eqb (exn_class e) "UnicodeDecodeError".

Section ProcessPath.

Variable fnmatch : str -> str -> bool.
Variable isdir : str -> bool.
Variable isfile : str -> bool.
Variable open_lines : str -> lib (list str).
Variable open_read : str -> lib str.
Variable ast_parse : str -> lib (list node).

(** [print_path(writer, ...)] on the state of a run. *)
Definition print_path_in (path content : str)
    (claude_xml markdown line_numbers : bool) (st : run_state) : res run_state :=
  p <- print_path path content claude_xml markdown line_numbers (printer st) ;;
  Ok {| printer := p; warnings := warnings st |}.

(** The [try] statement that handles one file: the body of the
    [os.path.isfile(path)] branch, and of the loop over the files of a
    directory.  Only [UnicodeDecodeError] is caught. *)
Definition process_file (path : str) (signature_patterns : list str)
    (claude_xml markdown line_numbers : bool) (st : run_state) : res run_state :=
  let should_extract_signatures :=
    existsb (fun pattern => fnmatch path pattern) signature_patterns in
  let handler (e : exn) (st : run_state) : res run_state :=
    if is_UnicodeDecodeError e then
      let warning_message :=
        lit "Warning: Skipping file " ++ path ++ lit " due to UnicodeDecodeError" in
      Ok (warn warning_message st)
    else Raise e in
  if should_extract_signatures && endswith_str path (lit ".py") then
    match extract_signatures_and_docstrings open_read ast_parse path with
    | Ok content =>
        match print_path_in (path ++ SIGNATURES_ONLY) content
                            claude_xml markdown line_numbers st with
        | Raise e => handler e st
        | r => r
        end
    | Raise e => handler e st
    | Diverge => Diverge
    end
  else
    let st :=
      if should_extract_signatures && negb (endswith_str path (lit ".py")) then
        let warning_message :=
          lit "Warning: Skipping signatures-only extraction for non-Python file "
          ++ path in
        warn warning_message st
      else st in
    match open_read path with
    | Returned content =>
        match print_path_in path content claude_xml markdown line_numbers st with
        | Raise e => handler e st
        | r => r
        end
    | Raised e => handler e st
    end.

(** One turn of the loop over [os.walk(path)], up to the loop over the
    files: the directories kept in [dirs], the files to print in their
    order, and the list [gitignore_rules] as the turn leaves it. *)
Definition select_entries (root : str) (dirs files : list str)
    (extensions : list str) (include_hidden ignore_files_only ignore_gitignore : bool)
    (gitignore_rules : list str) (ignore_patterns : list str)
  : res (list str * list str * list str) :=
  let '(dirs, files) :=
    if negb include_hidden then
      (filter (fun d => negb (startswith d [DOT])) dirs,
       filter (fun f => negb (startswith f [DOT])) files)
    else (dirs, files) in
  filtered <-
    (if negb ignore_gitignore then
       rules <- read_gitignore isfile open_lines root ;;
       let gitignore_rules := gitignore_rules ++ rules in
       Ok (filter (fun d => negb (should_ignore fnmatch isdir (path_join root d)
                                                gitignore_rules)) dirs,
           filter (fun f => negb (should_ignore fnmatch isdir (path_join root f)
                                                gitignore_rules)) files,
           gitignore_rules)
     else Ok (dirs, files, gitignore_rules)) ;;
  let '(dirs, files, gitignore_rules) := filtered in
  let '(dirs, files) :=
    match ignore_patterns with
    | _ :: _ =>
        ((if negb ignore_files_only then
            filter (fun d => negb (existsb (fun pattern => fnmatch d pattern)
                                           ignore_patterns)) dirs
          else dirs),
         filter (fun f => negb (existsb (fun pattern => fnmatch f pattern)
                                        ignore_patterns)) files)
    | [] => (dirs, files)
    end in
  let files :=
    match extensions with
    | _ :: _ => filter (fun f => existsb (fun e => endswith_str f e) extensions) files
    | [] => files
    end in
  Ok (dirs, sorted files, gitignore_rules).


End ProcessPath.

(** ** A small directory, used to run the definitions *)

Module Demo.

(** A matcher for the runs: the pattern [*] matches every name, any other
    pattern matches the name equal to it. *)
Definition matcher (name pattern : str) : bool :=
  str_eqb pattern (lit "*") || str_eqb name pattern.

Definition isdir (path : str) : bool := str_eqb path (lit "proj/src").
Definition isfile (path : str) : bool := str_eqb path (lit "proj/.gitignore").

(** The lines of [proj/.gitignore]. *)
Definition open_lines (path : str) : lib (list str) :=
  Returned [lit "# build products" ++ [LF]; [LF]; lit "  out.log " ++ [LF]].

(** Every file reads as the same two lines. *)
Definition open_read (path : str) : lib str :=
  Returned (lit "one" ++ [LF] ++ lit "two" ++ [LF]).

(** No file can be decoded. *)
Definition open_undecodable (path : str) : lib str :=
  Raised (Exn "UnicodeDecodeError"
              (lit "'utf-8' codec can't decode byte 0xff in position 0")).

Definition dirs : list str := [lit ".git"; lit "src"].
Definition files : list str :=
  [lit "b.py"; lit ".hidden"; lit "out.log"; lit "a.py"; lit "notes.txt"].

Definition start : run_state :=
  {| printer := {| written := []; global_index := 1 |}; warnings := [] |}.

End Demo.

(** * Properties *)

(** ** Facts on the string built-ins *)

Section StringFacts.

Lemma isspace_SPACE : isspace SPACE = true.
Proof. reflexivity. Qed.

Lemma lstrip_nil_iff (s : str) :
  lstrip s = [] <-> (forall c, In c s -> isspace c = true).
Proof.
  induction s as [|c s IH]; simpl.
  - split; [intros _ c []|reflexivity].
  - destruct (isspace c) eqn:E.
    + rewrite IH. split.
      * intros H d [<-|Hd]; auto.
      * intros H d Hd. apply H. now right.
    + split; [discriminate|].
      intros H. specialize (H c (or_introl eq_refl)). congruence.
Qed.

Lemma lstrip_head (s : str) (c : char) (t : str) :
  lstrip s = c :: t -> isspace c = false.
Proof.
  induction s as [|d s IH]; simpl; [discriminate|].
  destruct (isspace d) eqn:E; [exact IH|].
  intros [= -> _]. exact E.
Qed.

Lemma lstrip_idem (s : str) : lstrip (lstrip s) = lstrip s.
Proof.
  destruct (lstrip s) as [|c t] eqn:E; [reflexivity|].
  simpl. now rewrite (lstrip_head _ _ _ E).
Qed.

Lemma lstrip_decomp (s : str) :
  exists w, s = w ++ lstrip s /\ (forall c, In c w -> isspace c = true)
            /\ length w = leading_ws s.
Proof.
  unfold leading_ws. induction s as [|c s (w & Hs & Hw & Hl)]; cbn [lstrip].
  - exists []. repeat split. intros c [].
  - destruct (isspace c) eqn:E.
    + exists (c :: w). repeat split.
      * simpl. now rewrite <- Hs.
      * intros d [<-|Hd]; auto.
      * cbn [length]. rewrite Hl.
        assert (length (lstrip s) <= length s)%nat.
        { rewrite Hs at 2. rewrite length_app. lia. }
        lia.
    + exists []. repeat split; [intros d []|cbn [length]; lia].
Qed.

Lemma lstrip_app_ws (w s : str) :
  (forall c, In c w -> isspace c = true) -> lstrip (w ++ s) = lstrip s.
Proof.
  induction w as [|c w IH]; simpl; intros H; [reflexivity|].
  rewrite (H c (or_introl eq_refl)). apply IH. intros d Hd. apply H. now right.
Qed.

Lemma lstrip_app_nonblank (y x : str) :
  lstrip y <> [] -> lstrip (y ++ x) = lstrip y ++ x.
Proof.
  induction y as [|c y IH]; simpl; [congruence|].
  destruct (isspace c); [exact IH|reflexivity].
Qed.

Lemma spaces_ws (n : Z) (c : char) : In c (spaces n) -> isspace c = true.
Proof. intros H. apply repeat_spec in H. now subst. Qed.

Lemma lstrip_spaces_app (n : Z) (s : str) : lstrip (spaces n ++ s) = lstrip s.
Proof. apply lstrip_app_ws, spaces_ws. Qed.

Lemma length_spaces (n : Z) : length (spaces n) = Z.to_nat n.
Proof. apply repeat_length. Qed.

Lemma leading_ws_spaces_app (n : Z) (s : str) :
  leading_ws (spaces n ++ s) = (Z.to_nat n + leading_ws s)%nat.
Proof.
  unfold leading_ws. rewrite lstrip_spaces_app, length_app, length_spaces.
  destruct (lstrip_decomp s) as (w & Hs & _ & Hl). unfold leading_ws in Hl.
  assert (length (lstrip s) <= length s)%nat.
  { rewrite Hs at 2. rewrite length_app. lia. }
  lia.
Qed.

(** A line is blank when [line.strip()] is false. *)
Lemma truthy_strip (s : str) : truthy (strip s) = truthy (lstrip s).
Proof.
  unfold strip, rstrip. destruct (lstrip s) as [|c t] eqn:E; [reflexivity|].
  simpl truthy at 2.
  destruct (lstrip (rev (c :: t))) as [|d u] eqn:E'.
  - exfalso. rewrite lstrip_nil_iff in E'.
    specialize (E' c). rewrite <- in_rev in E'.
    rewrite (lstrip_head _ _ _ E) in E'. specialize (E' (or_introl eq_refl)).
    discriminate.
  - destruct (rev (d :: u)) eqn:R; [|reflexivity].
    apply (f_equal (@length _)) in R. rewrite length_rev in R. discriminate.
Qed.

Lemma ends_colon_eq (s : str) :
  ends_colon s = match lstrip (rev s) with
                 | [] => false
                 | d :: _ => (d =? COLON)%N
                 end.
Proof. unfold ends_colon, endswith, rstrip. now rewrite rev_involutive. Qed.

Lemma ends_colon_reindent (n : Z) (s : str) :
  ends_colon (spaces n ++ lstrip s) = ends_colon s.
Proof.
  rewrite !ends_colon_eq, rev_app_distr.
  destruct (lstrip_decomp s) as (w & Hs & Hw & _).
  destruct (lstrip s) as [|c t] eqn:E.
  - simpl. rewrite app_nil_r in Hs. subst w.
    replace (lstrip (rev s)) with (@nil char).
    + replace (lstrip (rev (spaces n))) with (@nil char); [reflexivity|].
      symmetry. apply lstrip_nil_iff. intros c Hc. apply in_rev in Hc.
      now apply spaces_ws in Hc.
    + symmetry. apply lstrip_nil_iff. intros c Hc. apply in_rev in Hc. auto.
  - assert (Hne : lstrip (rev (c :: t)) <> []).
    { intros H. rewrite lstrip_nil_iff in H. specialize (H c).
      rewrite <- in_rev in H. specialize (H (or_introl eq_refl)).
      rewrite (lstrip_head _ _ _ E) in H. discriminate. }
    rewrite Hs, rev_app_distr.
    rewrite !lstrip_app_nonblank by exact Hne.
    destruct (lstrip (rev (c :: t))); [congruence|reflexivity].
Qed.

Lemma find_ge (s : str) (c : char) : -1 <= find s c.
Proof.
  induction s as [|d s IH]; simpl; [lia|].
  destruct (d =? c)%N; [lia|]. destruct (find s c =? -1) eqn:E; lia.
Qed.

Lemma find_absent (s : str) (c : char) : find s c = -1 <-> ~ In c s.
Proof.
  induction s as [|d s IH]; simpl.
  - split; [intros _ []|reflexivity].
  - destruct (d =? c)%N eqn:E.
    + apply N.eqb_eq in E. split; [discriminate|]. intros H. exfalso. auto.
    + apply N.eqb_neq in E. pose proof (find_ge s c).
      destruct (find s c =? -1) eqn:F.
      * apply Z.eqb_eq in F. split; [|reflexivity].
        intros _ [H'|H']; [congruence|]. now apply IH.
      * apply Z.eqb_neq in F. split; [lia|].
        intros H'. exfalso. apply F, IH. intros Hin. apply H'. now right.
Qed.

Lemma find_present (s : str) (c : char) (p : Z) :
  find s c = p -> p <> -1 ->
  nth_error s (Z.to_nat p) = Some c
  /\ (forall j, (j < Z.to_nat p)%nat -> nth_error s j <> Some c).
Proof.
  revert p. induction s as [|d s IH]; simpl; intros p Hp Hne; [congruence|].
  destruct (d =? c)%N eqn:E.
  - apply N.eqb_eq in E. subst. split; [reflexivity|]. simpl. lia.
  - apply N.eqb_neq in E. pose proof (find_ge s c).
    destruct (find s c =? -1) eqn:F; [congruence|].
    apply Z.eqb_neq in F. destruct (IH _ eq_refl F) as [H1 H2].
    subst p. replace (Z.to_nat (find s c + 1)) with (S (Z.to_nat (find s c))) by lia.
    split; [exact H1|].
    intros [|j] Hj; simpl; [congruence|]. apply H2. lia.
Qed.

End StringFacts.

(** ** [get_signature]: the loop and what it returns *)

Section GetSignatureFacts.

Variable source_lines : list str.

Lemma getitem_nat {A : Type} (l : list A) (i : nat) (a : A) :
  nth_error l i = Some a -> getitem l (Z.of_nat i) = Ok a.
Proof.
  intros H. assert (i < length l)%nat by (apply nth_error_Some; congruence).
  unfold getitem.
  destruct (Z.ltb_spec (Z.of_nat i) 0); [lia|].
  destruct (Z.ltb_spec (Z.of_nat i) 0); [lia|].
  destruct (Z.leb_spec (Z.of_nat (length l)) (Z.of_nat i)); [lia|].
  cbn [orb]. now rewrite Nat2Z.id, H.
Qed.

Lemma getitem_last {A : Type} (pre : list A) (a : A) :
  getitem (pre ++ [a]) (-1) = Ok a.
Proof.
  unfold getitem. rewrite length_app. cbn [length].
  change (-1 <? 0) with true. cbv iota.
  destruct (Z.ltb_spec (-1 + Z.of_nat (length pre + 1)) 0); [lia|].
  destruct (Z.leb_spec (Z.of_nat (length pre + 1))
                       (-1 + Z.of_nat (length pre + 1))); [lia|].
  cbn [orb].
  replace (Z.to_nat (-1 + Z.of_nat (length pre + 1))) with (length pre) by lia.
  now rewrite nth_error_app2, Nat.sub_diag by lia.
Qed.

Lemma skipn_S_nth {A : Type} (l : list A) (i : nat) (a : A) :
  nth_error l i = Some a -> skipn i l = a :: skipn (S i) l.
Proof.
  revert i. induction l as [|b l IH]; intros [|i] H; simpl in *; try discriminate.
  - now injection H as ->.
  - now apply IH.
Qed.

Lemma signature_loop_spec (fuel : nat) (pi : Z) (fl : str) :
  forall (i : nat) (pre : list str) (l : str),
    (i < length source_lines)%nat ->
    (length source_lines - i < fuel)%nat ->
    signature_loop source_lines fuel pi fl (Z.of_nat i) (pre ++ [l])
    = Ok (pre ++ l :: (if ends_colon l then []
                       else rest_lines (continuation_line pi fl)
                                       (skipn (S i) source_lines))).
Proof.
  induction fuel as [|fuel IH]; intros i pre l Hi Hf; [lia|].
  cbn [signature_loop]. rewrite getitem_last. cbn [bind].
  fold (ends_colon l). destruct (ends_colon l); [reflexivity|].
  destruct (Z.of_nat i + 1 >=? Z.of_nat (length source_lines)) eqn:E.
  - rewrite Z.geb_le in E. rewrite skipn_all2 by lia. reflexivity.
  - rewrite Z.geb_leb, Z.leb_gt in E.
    destruct (nth_error source_lines (S i)) as [x|] eqn:Hx.
    2:{ apply nth_error_None in Hx. lia. }
    replace (Z.of_nat i + 1) with (Z.of_nat (S i)) by lia.
    rewrite (getitem_nat _ _ _ Hx). cbn [bind].
    rewrite IH by lia. rewrite (skipn_S_nth _ _ _ Hx). cbn [rest_lines].
    now rewrite <- app_assoc.
Qed.

Lemma get_signature_lines_spec (lineno pi : Z) :
  1 <= lineno <= Z.of_nat (length source_lines) ->
  get_signature_lines source_lines lineno pi
  = Ok (header_lines pi (skipn (Z.to_nat (lineno - 1)) source_lines)).
Proof.
  intros H. unfold get_signature_lines. cbv zeta.
  set (i := Z.to_nat (lineno - 1)).
  assert (E : lineno - 1 = Z.of_nat i) by lia. rewrite E. clearbody i.
  destruct (nth_error source_lines i) as [line|] eqn:Hl.
  2:{ apply nth_error_None in Hl. lia. }
  rewrite (getitem_nat _ _ _ Hl). cbn [bind].
  etransitivity; [apply (signature_loop_spec _ _ _ _ []); lia|].
  rewrite (skipn_S_nth _ _ _ Hl). reflexivity.
Qed.

End GetSignatureFacts.

(** ** The header as a function of the source lines *)

Section HeaderFacts.

Lemma cont_ends_colon (pi : Z) (fl x : str) :
  ends_colon (continuation_line pi fl x) = ends_colon x.
Proof.
  unfold continuation_line. destruct (pi >? 0); [|reflexivity].
  destruct (negb _); apply ends_colon_reindent.
Qed.

Lemma first_ends_colon (pi : Z) (line : str) :
  ends_colon (first_line_of pi line) = ends_colon line.
Proof.
  unfold first_line_of. destruct (pi >? 0); [|reflexivity].
  apply ends_colon_reindent.
Qed.

Lemma rest_lines_map (f : str -> str) (ls : list str) :
  (forall x, ends_colon (f x) = ends_colon x) ->
  rest_lines f ls = map f (until_colon ls).
Proof.
  intros Hf. induction ls as [|x ls IH]; [reflexivity|].
  cbn [rest_lines until_colon map]. rewrite Hf.
  destruct (ends_colon x); [reflexivity|now rewrite IH].
Qed.

Lemma header_lines_eq (pi : Z) (ls : list str) :
  header_lines pi ls = render_header pi (until_colon ls).
Proof.
  destruct ls as [|line rest]; [reflexivity|].
  cbn [header_lines until_colon render_header]. rewrite first_ends_colon.
  destruct (ends_colon line); [reflexivity|].
  now rewrite rest_lines_map by (intros; apply cont_ends_colon).
Qed.

Lemma until_colon_all (ls : list str) :
  (forall l, In l ls -> ends_colon l = false) -> until_colon ls = ls.
Proof.
  induction ls as [|x ls IH]; intros H; [reflexivity|].
  cbn [until_colon]. rewrite (H x (or_introl eq_refl)).
  rewrite IH; [reflexivity|]. intros l Hl. apply H. now right.
Qed.

Lemma until_colon_first (ls : list str) :
  forall (k : nat) (lk : str),
    nth_error ls k = Some lk -> ends_colon lk = true ->
    (forall j l, (j < k)%nat -> nth_error ls j = Some l -> ends_colon l = false) ->
    until_colon ls = firstn (S k) ls.
Proof.
  induction ls as [|x ls IH]; intros [|k] lk Hk He Hlt; try discriminate.
  - injection Hk as ->. cbn [until_colon firstn]. now rewrite He.
  - cbn [until_colon]. rewrite (Hlt 0%nat x) by (reflexivity || lia).
    rewrite firstn_cons. f_equal. apply (IH k lk Hk He).
    intros j l Hj Hl. apply (Hlt (S j) l); [lia|exact Hl].
Qed.

Lemma length_continuation (pi : Z) (fl x : str) :
  pi <= Z.of_nat (length (continuation_line pi fl x)).
Proof.
  unfold continuation_line. destruct (Z.gtb_spec pi 0); [|lia].
  pose proof (find_ge (lstrip fl) LPAREN).
  destruct (negb _); rewrite length_app, length_spaces; lia.
Qed.

Lemma lstrip_continuation (pi : Z) (fl x : str) :
  lstrip (continuation_line pi fl x) = lstrip x
  /\ (pi <= 0 -> continuation_line pi fl x = x).
Proof.
  unfold continuation_line. destruct (Z.gtb_spec pi 0).
  - split; [|lia]. destruct (negb _); now rewrite lstrip_spaces_app, lstrip_idem.
  - split; reflexivity.
Qed.

Lemma lstrip_first_line (pi : Z) (line : str) :
  lstrip (first_line_of pi line) = lstrip line
  /\ (pi <= 0 -> first_line_of pi line = line)
  /\ pi <= Z.of_nat (length (first_line_of pi line)).
Proof.
  unfold first_line_of. destruct (Z.gtb_spec pi 0).
  - repeat split; [now rewrite lstrip_spaces_app, lstrip_idem|lia|].
    rewrite length_app, length_spaces. lia.
  - repeat split. lia.
Qed.

(** Every rendered line comes from the source line at the same offset. *)
Lemma render_header_nth (pi : Z) (xs : list str) (i : nat) (l : str) :
  nth_error (render_header pi xs) i = Some l ->
  exists src, nth_error xs i = Some src
              /\ lstrip l = lstrip src
              /\ (pi <= 0 -> l = src)
              /\ pi <= Z.of_nat (length l).
Proof.
  destruct xs as [|line xs]; [destruct i; discriminate|].
  cbn [render_header]. destruct i as [|i]; cbn [nth_error].
  - intros [= <-]. exists line. split; [reflexivity|]. apply lstrip_first_line.
  - rewrite nth_error_map. destruct (nth_error xs i) as [src|]; [|discriminate].
    intros [= <-]. exists src. split; [reflexivity|].
    split; [apply lstrip_continuation|]. split; [apply lstrip_continuation|].
    apply length_continuation.
Qed.

Lemma length_render_header (pi : Z) (xs : list str) :
  length (render_header pi xs) = length xs.
Proof. destruct xs; [reflexivity|]. cbn. now rewrite length_map. Qed.

Lemma nth_error_firstn_skipn {A : Type} (l : list A) (n m i : nat) (a : A) :
  nth_error (firstn n (skipn m l)) i = Some a -> nth_error l (m + i) = Some a.
Proof.
  intros H. rewrite <- nth_error_skipn.
  destruct (Nat.lt_ge_cases i n) as [Hi|Hi].
  - now rewrite nth_error_firstn in H; destruct (Nat.ltb_spec i n); try lia.
  - assert (nth_error (firstn n (skipn m l)) i = None); [|congruence].
    apply nth_error_None. rewrite length_firstn. lia.
Qed.

End HeaderFacts.

(** ** [get_signature] on a line number in range *)

Section SignatureHeader.

Variable source_lines : list str.

Lemma until_colon_prefix (ls : list str) (i : nat) (x : str) :
  nth_error (until_colon ls) i = Some x -> nth_error ls i = Some x.
Proof.
  revert i. induction ls as [|y ls IH]; intros i; [destruct i; discriminate|].
  cbn [until_colon]. destruct i as [|i]; cbn [nth_error]; [auto|].
  destruct (ends_colon y); [destruct i; discriminate|apply IH].
Qed.

Lemma get_signature_header (n : node) (pi : Z) :
  1 <= lineno n <= Z.of_nat (length source_lines) ->
  get_signature source_lines n pi
  = Ok (join [LF] (render_header pi
         (until_colon (skipn (Z.to_nat (lineno n - 1)) source_lines)))).
Proof.
  intros H. unfold get_signature.
  now rewrite get_signature_lines_spec, header_lines_eq by exact H.
Qed.

End SignatureHeader.

(** ** [splitlines] and [join] *)

Section SplitJoinFacts.

Lemma splitlines_nil_iff (s : str) : splitlines s = [] <-> s = [].
Proof.
  split; [|now intros ->].
  destruct s as [|c s]; [reflexivity|]. cbn [splitlines].
  destruct (is_linebreak c); [discriminate|].
  destruct (splitlines s); discriminate.
Qed.

(** No line reported by [splitlines] holds a line boundary. *)
Lemma splitlines_single_line (s : str) :
  Forall (fun l => single_line l = true) (splitlines s).
Proof.
  assert (H : forall n s, (length s <= n)%nat ->
                          Forall (fun l => single_line l = true) (splitlines s)).
  { clear s. induction n as [|n IH]; intros [|c s] Hn; cbn [length] in Hn;
      try (constructor; fail); [lia|].
    cbn [splitlines]. destruct (is_linebreak c) eqn:E.
    - constructor; [reflexivity|].
      destruct (c =? CR)%N; [|apply IH; lia].
      destruct s as [|d s]; [constructor|].
      destruct (d =? LF)%N; apply IH; cbn [length] in *; lia.
    - specialize (IH s ltac:(lia)).
      destruct (splitlines s) as [|l ls].
      + constructor; [|constructor]. cbn. now rewrite E.
      + inversion IH; subst. constructor; [|assumption].
        cbn. now rewrite E. }
  now apply (H (length s)).
Qed.

Lemma splitlines_line_LF (p s : str) :
  single_line p = true -> splitlines (p ++ LF :: s) = p :: splitlines s.
Proof.
  induction p as [|c p IH]; intros H.
  - reflexivity.
  - cbn in H. apply andb_prop in H as [Hc Hp].
    apply negb_true_iff in Hc.
    cbn [app splitlines]. rewrite Hc, (IH Hp). reflexivity.
Qed.

Lemma splitlines_line (p : str) :
  single_line p = true ->
  splitlines p = match p with [] => [] | _ => [p] end.
Proof.
  induction p as [|c p IH]; intros H; [reflexivity|].
  cbn in H. apply andb_prop in H as [Hc Hp]. apply negb_true_iff in Hc.
  cbn [splitlines]. rewrite Hc, (IH Hp). now destruct p.
Qed.

(** [splitlines] undoes [join] on lines without boundary, up to an empty
    last line, which is not reported. *)
Lemma splitlines_join (L : list str) :
  Forall (fun l => single_line l = true) L ->
  splitlines (join [LF] L) = drop_last_empty L.
Proof.
  induction L as [|p L IH]; intros H; [reflexivity|].
  inversion H as [|? ? Hp HL]; subst.
  destruct L as [|q L].
  - cbn [join drop_last_empty]. rewrite (splitlines_line _ Hp). now destruct p.
  - change (join [LF] (p :: q :: L)) with (p ++ LF :: join [LF] (q :: L)).
    rewrite (splitlines_line_LF _ _ Hp), (IH HL). reflexivity.
Qed.

Lemma drop_last_empty_id (L : list str) :
  last L [] <> [] -> drop_last_empty L = L.
Proof.
  induction L as [|p L IH]; [reflexivity|].
  destruct L as [|q L].
  - cbn. destruct p; [congruence|reflexivity].
  - intros H. change (drop_last_empty (p :: q :: L))
      with (p :: drop_last_empty (q :: L)).
    f_equal. apply IH. exact H.
Qed.

Lemma join_two_truthy (p q : str) (L : list str) :
  truthy (join [LF] (p :: q :: L)) = true.
Proof.
  change (join [LF] (p :: q :: L)) with (p ++ LF :: join [LF] (q :: L)).
  now destruct p.
Qed.

End SplitJoinFacts.

(** ** [normalize_docstring] *)

Section NormalizeFacts.

Lemma nonempty_line_lstrip (l : str) : nonempty_line l = truthy (lstrip l).
Proof. apply truthy_strip. Qed.

Lemma normalized_loop_map (d : Z) (m : nat) (ls acc : list str) :
  normalized_loop d m ls acc = acc ++ map (normalized_line d m) ls.
Proof.
  unfold normalized_loop. revert acc.
  induction ls as [|x ls IH]; intros acc; cbn [fold_left map].
  - now rewrite app_nil_r.
  - rewrite IH. unfold normalized_line at 2, nonempty_line.
    destruct (truthy (strip x)); now rewrite <- app_assoc.
Qed.

Lemma min_indent_loop_snoc (ls : list str) (x : str) :
  min_indent_loop (ls ++ [x]) = min_step (min_indent_loop ls) x.
Proof. unfold min_indent_loop. now rewrite fold_left_app. Qed.

Lemma min_indent_loop_spec (ls : list str) :
  match min_indent_loop ls with
  | None => forall l, In l ls -> nonempty_line l = false
  | Some m =>
      (exists l, In l ls /\ nonempty_line l = true /\ leading_ws l = m)
      /\ (forall l, In l ls -> nonempty_line l = true -> (m <= leading_ws l)%nat)
  end.
Proof.
  induction ls as [|x ls IH] using rev_ind.
  - intros l [].
  - rewrite min_indent_loop_snoc. unfold min_step.
    destruct (nonempty_line x) eqn:Ex.
    + destruct (min_indent_loop ls) as [m|]; cbn [min_inf].
      * destruct IH as [(l0 & Hin & Hne & Hw) Hle]. split.
        -- destruct (Nat.le_ge_cases m (leading_ws x)).
           ++ exists l0. rewrite in_app_iff. repeat split; auto. lia.
           ++ exists x. rewrite in_app_iff. repeat split; cbn; auto. lia.
        -- intros l Hl Hn. apply in_app_iff in Hl as [Hl|[<-|[]]].
           ++ specialize (Hle l Hl Hn). lia.
           ++ lia.
      * split.
        -- exists x. rewrite in_app_iff. repeat split; cbn; auto.
        -- intros l Hl Hn. apply in_app_iff in Hl as [Hl|[<-|[]]].
           ++ rewrite (IH l Hl) in Hn. discriminate.
           ++ lia.
    + destruct (min_indent_loop ls) as [m|].
      * destruct IH as [(l0 & Hin & Hne & Hw) Hle]. split.
        -- exists l0. rewrite in_app_iff. auto.
        -- intros l Hl Hn. apply in_app_iff in Hl as [Hl|[<-|[]]]; [auto|congruence].
      * intros l Hl. apply in_app_iff in Hl as [Hl|[<-|[]]]; auto.
Qed.

Lemma min_indent_loop_is_min (ls : list str) :
  is_min_indent (match min_indent_loop ls with None => 0%nat | Some m => m end) ls.
Proof.
  pose proof (min_indent_loop_spec ls) as H. unfold is_min_indent.
  destruct (min_indent_loop ls) as [m|].
  - destruct H as [Hex Hle]. split; [exact Hle|now left].
  - split; [|right; split; [exact H|reflexivity]].
    intros l Hl Hn. rewrite (H l Hl) in Hn. discriminate.
Qed.

(** [normalize_docstring] on a documentation of two lines or more. *)
Lemma normalize_docstring_multi (doc : str) (d : Z) (first : str) (rest : list str) :
  splitlines doc = first :: rest -> rest <> [] ->
  normalize_docstring doc d
  = Ok (Some (join [LF]
         (first :: map (normalized_line d
                          (match min_indent_loop rest with
                           | None => 0%nat | Some m => m end)) rest))).
Proof.
  intros Hs Hr. unfold normalize_docstring.
  destruct doc as [|c doc]; [discriminate|]. cbn [truthy negb].
  rewrite Hs. destruct rest as [|r rest]; [congruence|].
  cbn [length Nat.eqb tl]. change 0 with (Z.of_nat 0).
  rewrite (getitem_nat (first :: r :: rest) 0 first eq_refl). cbn [bind].
  now rewrite normalized_loop_map.
Qed.

(** [normalize_docstring] returns, whatever it is given. *)
Lemma normalize_docstring_returns (doc : str) (d : Z) :
  exists o, normalize_docstring doc d = Ok o
            /\ (truthy doc = true -> exists out, o = Some out).
Proof.
  destruct (splitlines doc) as [|first rest] eqn:Hs.
  - apply splitlines_nil_iff in Hs. subst. exists None. split; [reflexivity|discriminate].
  - destruct rest as [|r rest].
    + unfold normalize_docstring. rewrite Hs.
      destruct doc; cbn; eexists; split; try reflexivity; try discriminate; eauto.
    + eexists. split; [apply (normalize_docstring_multi _ _ _ _ Hs); discriminate|].
      eauto.
Qed.

End NormalizeFacts.

(** ** A second pass of [normalize_docstring] *)

Section SecondPass.

Lemma single_line_app (a b : str) :
  single_line (a ++ b) = single_line a && single_line b.
Proof. apply forallb_app. Qed.

Lemma single_line_spaces (d : Z) : single_line (spaces d) = true.
Proof.
  unfold spaces. induction (Z.to_nat d) as [|n IH]; [reflexivity|].
  cbn. exact IH.
Qed.

Lemma In_skipn {A : Type} (m : nat) (l : list A) (c : A) :
  In c (skipn m l) -> In c l.
Proof.
  intros H. rewrite <- (firstn_skipn m l). apply in_or_app. now right.
Qed.

Lemma single_line_skipn (m : nat) (l : str) :
  single_line l = true -> single_line (skipn m l) = true.
Proof.
  intros H. unfold single_line in *. rewrite forallb_forall in *.
  intros c Hc. apply H. revert Hc. apply In_skipn.
Qed.

Lemma single_line_normalized (d : Z) (m : nat) (l : str) :
  single_line l = true -> single_line (normalized_line d m l) = true.
Proof.
  intros H. unfold normalized_line, slice_from.
  destruct (nonempty_line l); [|reflexivity].
  now rewrite single_line_app, single_line_spaces, single_line_skipn.
Qed.

Lemma length_lstrip_le (l : str) : (length (lstrip l) <= length l)%nat.
Proof.
  destruct (lstrip_decomp l) as (w & Hs & _ & _).
  rewrite Hs at 2. rewrite length_app. lia.
Qed.

Lemma lstrip_skipn (m : nat) (l : str) :
  (m <= leading_ws l)%nat ->
  lstrip (skipn m l) = lstrip l
  /\ leading_ws (skipn m l) = (leading_ws l - m)%nat.
Proof.
  intros Hm. destruct (lstrip_decomp l) as (w & Hs & Hw & Hl).
  assert (E : skipn m l = skipn m w ++ lstrip l).
  { rewrite Hs at 1. rewrite skipn_app.
    replace (m - length w)%nat with 0%nat by lia. reflexivity. }
  assert (L : lstrip (skipn m l) = lstrip l).
  { rewrite E, lstrip_app_ws, lstrip_idem; [reflexivity|].
    intros c Hc. apply Hw. revert Hc. apply In_skipn. }
  split; [exact L|].
  unfold leading_ws at 1. rewrite L, length_skipn.
  pose proof (length_lstrip_le l). unfold leading_ws in *. lia.
Qed.

(** A non-empty line stays non-empty and sits exactly [indentation] deeper
    than its distance to the minimum. *)
Lemma normalized_line_nonempty (d : Z) (m : nat) (l : str) :
  nonempty_line l = true -> (m <= leading_ws l)%nat ->
  normalized_line d m l = spaces d ++ skipn m l
  /\ nonempty_line (normalized_line d m l) = true
  /\ leading_ws (normalized_line d m l) = (Z.to_nat d + (leading_ws l - m))%nat.
Proof.
  intros Hn Hm. destruct (lstrip_skipn m l Hm) as [L W].
  unfold normalized_line, slice_from. rewrite Hn. split; [reflexivity|]. split.
  - rewrite nonempty_line_lstrip, lstrip_spaces_app, L, <- nonempty_line_lstrip.
    exact Hn.
  - now rewrite leading_ws_spaces_app, W.
Qed.

Lemma normalized_line_empty (d : Z) (m : nat) (l : str) :
  nonempty_line l = false -> normalized_line d m l = [].
Proof. intros H. unfold normalized_line. now rewrite H. Qed.

Lemma skipn_spaces_app (d : Z) (s : str) :
  skipn (Z.to_nat d) (spaces d ++ s) = s.
Proof.
  rewrite skipn_app, length_spaces, Nat.sub_diag, skipn_all2.
  - reflexivity.
  - rewrite length_spaces. lia.
Qed.

(** Lines already normalized at [d] are left as they are by a second
    normalization at [d]. *)
Lemma renormalize_fixed (d : Z) (m0 : nat) (rest : list str) :
  is_min_indent m0 rest ->
  forall m1, is_min_indent m1 (map (normalized_line d m0) rest) ->
  map (normalized_line d m1) (map (normalized_line d m0) rest)
  = map (normalized_line d m0) rest.
Proof.
  intros [Hle Hex] m1 [Hle1 Hex1].
  rewrite map_map. apply map_ext_in. intros l Hl.
  destruct (nonempty_line l) eqn:En.
  2:{ rewrite (normalized_line_empty d m0 l En). reflexivity. }
  assert (Hm1 : m1 = Z.to_nat d).
  { destruct Hex as [(l0 & Hin0 & Hn0 & Hw0)|[Hall _]].
    2:{ rewrite (Hall l Hl) in En. discriminate. }
    destruct (normalized_line_nonempty d m0 l0 Hn0 ltac:(lia)) as (_ & N0 & W0).
    assert (U : (m1 <= Z.to_nat d)%nat).
    { specialize (Hle1 (normalized_line d m0 l0) (in_map _ _ _ Hin0) N0). lia. }
    destruct Hex1 as [(t & Hint & Hnt & Hwt)|[Hall _]].
    - apply in_map_iff in Hint as (l' & <- & Hin').
      destruct (nonempty_line l') eqn:En'.
      + destruct (normalized_line_nonempty d m0 l' En' (Hle l' Hin' En'))
          as (_ & _ & W'). lia.
      + rewrite (normalized_line_empty d m0 l' En') in Hnt. discriminate.
    - rewrite (Hall _ (in_map _ _ _ Hin0)) in N0. discriminate. }
  destruct (normalized_line_nonempty d m0 l En (Hle l Hl En)) as (E & N & _).
  unfold normalized_line at 1. rewrite N, E, Hm1. unfold slice_from.
  now rewrite skipn_spaces_app.
Qed.

Lemma last_map_nil (f : str -> str) (L : list str) :
  f [] = [] -> last (map f L) [] = f (last L []).
Proof.
  intros Hf. induction L as [|x L IH]; [symmetry; exact Hf|].
  destruct L as [|y L]; [reflexivity|]. exact IH.
Qed.

End SecondPass.

(** ** The loops of the extraction *)

Section ExtractionFacts.

Variable sl : list str.

Lemma getitem_returns_or_raises {A : Type} (l : list A) (i : Z) :
  getitem l i <> Diverge.
Proof.
  unfold getitem. destruct (_ || _); [discriminate|].
  destruct (nth_error _ _); discriminate.
Qed.

(** The loop of [get_signature] is left before its bound is reached. *)
Lemma signature_loop_terminates (fuel : nat) (pi : Z) (fl : str) :
  forall (li : Z) (lines : list str),
    (Z.to_nat (Z.of_nat (length sl) - li) < fuel)%nat ->
    signature_loop sl fuel pi fl li lines <> Diverge.
Proof.
  induction fuel as [|fuel IH]; intros li lines Hf; [lia|].
  cbn [signature_loop].
  destruct (getitem lines (-1)) as [last_line|e|] eqn:G; cbn [bind];
    [|discriminate|now apply getitem_returns_or_raises in G].
  destruct (endswith (rstrip last_line) COLON); [discriminate|].
  destruct (Z.geb_spec (li + 1) (Z.of_nat (length sl))); [discriminate|].
  destruct (getitem sl (li + 1)) as [next_line|e|] eqn:G'; cbn [bind];
    [|discriminate|now apply getitem_returns_or_raises in G'].
  apply IH. lia.
Qed.

Lemma get_signature_terminates (n : node) (pi : Z) :
  get_signature sl n pi <> Diverge.
Proof.
  unfold get_signature.
  destruct (get_signature_lines sl (lineno n) pi) as [ls|e|] eqn:G;
    cbn [bind]; try discriminate.
  exfalso. revert G. unfold get_signature_lines.
  destruct (getitem sl (lineno n - 1)) as [line|e|] eqn:G'; cbn [bind];
    [|discriminate|now apply getitem_returns_or_raises in G'].
  apply signature_loop_terminates. lia.
Qed.

Lemma render_block_terminates (pi : Z) (n : node) :
  render_block sl pi n <> Diverge.
Proof.
  unfold render_block.
  destruct (get_signature sl n pi) as [sig|e|] eqn:G; cbn [bind];
    [|discriminate|now apply get_signature_terminates in G].
  destruct (doc_truthy (docstring n)); [|discriminate].
  destruct (normalize_docstring_returns (doc_text (docstring n)) (pi + 4))
    as (o & -> & _).
  discriminate.
Qed.

Lemma mapM_terminates {A B : Type} (f : A -> res B) (l : list A) :
  (forall a, In a l -> f a <> Diverge) -> mapM f l <> Diverge.
Proof.
  induction l as [|a l IH]; intros H; [discriminate|].
  cbn [mapM]. destruct (f a) as [b|e|] eqn:F; cbn [bind];
    [|discriminate|exfalso; now apply (H a (or_introl eq_refl))].
  destruct (mapM f l) as [bs|e|] eqn:M; cbn [bind]; try discriminate.
  apply IH. intros a' Ha'. apply H. now right.
Qed.

Lemma mapM_app {A B : Type} (f : A -> res B) (l1 l2 : list A) :
  mapM f (l1 ++ l2)
  = (xs <- mapM f l1 ;; ys <- mapM f l2 ;; Ok (xs ++ ys)).
Proof.
  induction l1 as [|a l1 IH]; cbn [app mapM bind].
  - now destruct (mapM f l2).
  - destruct (f a); cbn [bind]; try reflexivity.
    rewrite IH. destruct (mapM f l1); cbn [bind]; try reflexivity.
    now destruct (mapM f l2).
Qed.

Lemma mapM_returns {A B : Type} (f : A -> res B) (l : list A) :
  (forall a, In a l -> exists b, f a = Ok b) ->
  exists bs, mapM f l = Ok bs /\ Forall2 (fun a b => f a = Ok b) l bs.
Proof.
  induction l as [|a l IH]; intros H.
  - exists []. split; [reflexivity|constructor].
  - destruct (H a (or_introl eq_refl)) as (b & Hb).
    destruct IH as (bs & Hbs & HF); [intros a' Ha'; apply H; now right|].
    exists (b :: bs). cbn [mapM]. rewrite Hb, Hbs. split; [reflexivity|].
    now constructor.
Qed.

(** The two loop bodies, in terms of [render_block]. *)
Lemma process_item_eq (results : list str) (item : node) :
  process_item sl results item
  = if is_FunctionDef item
    then blk <- render_block sl 4 item ;; Ok (results ++ [blk])
    else Ok results.
Proof.
  unfold process_item, render_block. change (4 + 4) with 8.
  destruct (is_FunctionDef item); [|reflexivity].
  destruct (get_signature sl item 4); cbn [bind]; try reflexivity.
  destruct (doc_truthy (docstring item)); [|reflexivity].
  now destruct (normalize_docstring (doc_text (docstring item)) 8).
Qed.

Lemma process_node_eq (results : list str) (n : node) :
  process_node sl results n
  = if is_FunctionDef n
    then blk <- render_block sl 0 n ;; Ok (results ++ [blk])
    else if is_ClassDef n
    then blk <- render_block sl 0 n ;;
         for_each (body n) (process_item sl) (results ++ [blk])
    else Ok results.
Proof.
  unfold process_node, render_block. change (0 + 4) with 4.
  destruct (is_FunctionDef n).
  - destruct (get_signature sl n 0); cbn [bind]; try reflexivity.
    destruct (doc_truthy (docstring n)); [|reflexivity].
    now destruct (normalize_docstring (doc_text (docstring n)) 4).
  - destruct (is_ClassDef n); [|reflexivity].
    destruct (get_signature sl n 0); cbn [bind]; reflexivity.
Qed.

Lemma for_each_items (items : list node) :
  forall results,
    for_each items (process_item sl) results
    = (bs <- mapM (render_located sl)
                  (map (fun item => (4, item)) (filter is_FunctionDef items)) ;;
       Ok (results ++ bs)).
Proof.
  induction items as [|item items IH]; intros results; cbn [for_each filter].
  - cbn. now rewrite app_nil_r.
  - rewrite process_item_eq. destruct (is_FunctionDef item); cbn [bind map mapM].
    + unfold render_located at 1. cbn [fst snd].
      destruct (render_block sl 4 item); cbn [bind]; try reflexivity.
      rewrite IH. destruct (mapM _ _); cbn [bind]; try reflexivity.
      now rewrite <- app_assoc.
    + apply IH.
Qed.

Lemma for_each_nodes (m : list node) :
  forall results,
    for_each m (process_node sl) results
    = (bs <- mapM (render_located sl) (locate m) ;; Ok (results ++ bs)).
Proof.
  induction m as [|n m IH]; intros results; cbn [for_each].
  - cbn. now rewrite app_nil_r.
  - unfold locate. cbn [flat_map]. fold (locate m). rewrite mapM_app.
    rewrite process_node_eq. destruct (is_FunctionDef n).
    + cbn [mapM bind]. unfold render_located at 1. cbn [fst snd].
      destruct (render_block sl 0 n); cbn [bind]; try reflexivity.
      rewrite IH. destruct (mapM _ _); cbn [bind]; try reflexivity.
      now rewrite <- app_assoc.
    + destruct (is_ClassDef n).
      * cbn [mapM bind]. unfold render_located at 1. cbn [fst snd].
        destruct (render_block sl 0 n); cbn [bind]; try reflexivity.
        rewrite for_each_items.
        destruct (mapM (render_located sl) (map _ _)); cbn [bind]; try reflexivity.
        rewrite IH. destruct (mapM _ _); cbn [bind]; try reflexivity.
        now rewrite <- !app_assoc.
      * cbn [mapM bind]. rewrite IH. now destruct (mapM _ _).
Qed.

Lemma collect_results_locate (m : list node) :
  collect_results sl m = mapM (render_located sl) (locate m).
Proof.
  unfold collect_results. rewrite for_each_nodes. now destruct (mapM _ _).
Qed.

Lemma collect_results_terminates (m : list node) :
  collect_results sl m <> Diverge.
Proof.
  rewrite collect_results_locate. apply mapM_terminates.
  intros [pi n] _. apply render_block_terminates.
Qed.

(** With its line number in range, a declaration is rendered. *)
Lemma render_block_returns (pi : Z) (n : node) :
  1 <= lineno n <= Z.of_nat (length sl) ->
  exists b, render_block sl pi n = Ok b.
Proof.
  intros H. unfold render_block. rewrite get_signature_header by exact H.
  cbn [bind]. destruct (doc_truthy (docstring n)); [|eauto].
  destruct (normalize_docstring_returns (doc_text (docstring n)) (pi + 4))
    as (o & -> & _).
  cbn [bind]. eauto.
Qed.

(** What [locate] returns: direct children only. *)
Lemma locate_direct (m : list node) (pi : Z) (n : node) :
  In (pi, n) (locate m) ->
  (pi = 0 /\ In n m /\ (kind n = FunctionDef \/ kind n = ClassDef))
  \/ (pi = 4 /\ kind n = FunctionDef
      /\ exists c, In c m /\ kind c = ClassDef /\ In n (body c)).
Proof.
  unfold locate. rewrite in_flat_map. intros (c & Hc & Hin).
  unfold is_FunctionDef, is_ClassDef in Hin.
  destruct (kind c) eqn:K; try (destruct Hin; fail).
  - destruct Hin as [[= <- <-]|[]]. left. auto.
  - destruct Hin as [[= <- <-]|Hin]; [left; auto|].
    apply in_map_iff in Hin as (item & [= <- <-] & Hitem).
    apply filter_In in Hitem as [Hitem Hk]. right. split; [reflexivity|].
    split; [|eauto].
    unfold is_FunctionDef in Hk. now destruct (kind item).
Qed.

End ExtractionFacts.

(** * The claims *)

Section HeaderClaims.

Variable source_lines : list str.

(** C5. When some line at or after the declaration's starting line has a
    right-trimmed text ending with a colon, and [k] is the first such line,
    [get_signature] returns the join of exactly the lines from the starting
    line to line [k] included (each one the source line at that place, up to
    its leading whitespace, and untouched at base indentation 0), and every
    line it returns is at least as long as the base indentation. *)
Theorem get_signature_stops_at_first_colon
    (n : node) (pi : Z) (k : nat) (lk : str) :
  1 <= lineno n ->
  (Z.to_nat (lineno n - 1) <= k)%nat ->
  nth_error source_lines k = Some lk ->
  ends_colon lk = true ->
  (forall j l, (Z.to_nat (lineno n - 1) <= j < k)%nat ->
               nth_error source_lines j = Some l -> ends_colon l = false) ->
  exists ls,
    get_signature source_lines n pi = Ok (join [LF] ls)
    /\ length ls = S (k - Z.to_nat (lineno n - 1))
    /\ (forall i l, nth_error ls i = Some l ->
          exists src, nth_error source_lines (Z.to_nat (lineno n - 1) + i) = Some src
                      /\ lstrip l = lstrip src
                      /\ (pi <= 0 -> l = src))
    /\ Forall (fun l => pi <= Z.of_nat (length l)) ls.
Proof.
  intros H1 Hk Hlk He Hfirst.
  set (idx := Z.to_nat (lineno n - 1)) in *.
  assert (Hlen : (k < length source_lines)%nat)
    by (apply nth_error_Some; congruence).
  assert (Hu : until_colon (skipn idx source_lines)
               = firstn (S (k - idx)) (skipn idx source_lines)).
  { apply (until_colon_first _ (k - idx)%nat lk).
    - rewrite nth_error_skipn. now replace (idx + (k - idx))%nat with k by lia.
    - exact He.
    - intros j l Hj Hl. rewrite nth_error_skipn in Hl.
      apply (Hfirst (idx + j)%nat l); [lia|exact Hl]. }
  eexists. split; [|split; [|split]].
  - rewrite get_signature_header by lia. fold idx. rewrite Hu. reflexivity.
  - rewrite length_render_header, length_firstn, length_skipn. lia.
  - intros i l Hi. apply render_header_nth in Hi as (src & Hs & Hl & H0 & _).
    exists src. split; [|split]; auto.
    now apply nth_error_firstn_skipn in Hs.
  - apply Forall_forall. intros l Hl. apply In_nth_error in Hl as (i & Hi).
    now apply render_header_nth in Hi as (src & _ & _ & _ & Hlen').
Qed.

(** C7. When no line from the declaration's starting line to the end of the
    file has a right-trimmed text ending with a colon, [get_signature]
    returns without raising, and what it returns is the join of all lines
    from the starting line to the last line of the file. *)
Theorem get_signature_stops_at_eof (n : node) (pi : Z) :
  1 <= lineno n <= Z.of_nat (length source_lines) ->
  (forall j l, (Z.to_nat (lineno n - 1) <= j)%nat ->
               nth_error source_lines j = Some l -> ends_colon l = false) ->
  exists ls,
    get_signature source_lines n pi = Ok (join [LF] ls)
    /\ length ls = (length source_lines - Z.to_nat (lineno n - 1))%nat
    /\ (forall i l, nth_error ls i = Some l ->
          exists src, nth_error source_lines (Z.to_nat (lineno n - 1) + i) = Some src
                      /\ lstrip l = lstrip src
                      /\ (pi <= 0 -> l = src)).
Proof.
  intros H Hnone.
  set (idx := Z.to_nat (lineno n - 1)) in *.
  assert (Hu : until_colon (skipn idx source_lines) = skipn idx source_lines).
  { apply until_colon_all. intros l Hl. apply In_nth_error in Hl as (j & Hj).
    rewrite nth_error_skipn in Hj. apply (Hnone (idx + j)%nat l); [lia|exact Hj]. }
  eexists. split; [|split].
  - rewrite get_signature_header by lia. fold idx. rewrite Hu. reflexivity.
  - now rewrite length_render_header, length_skipn.
  - intros i l Hi. apply render_header_nth in Hi as (src & Hs & Hl & H0 & _).
    exists src. rewrite nth_error_skipn in Hs. auto.
Qed.

(** C2. With a base indentation greater than 0, the header returned by
    [get_signature] starts with the re-indented first line, and every line
    after it is a source line whose leading whitespace was removed and
    replaced: when the re-indented first line contains an opening
    parenthesis, by base indentation + offset of the first parenthesis in the
    stripped first line + 1 spaces, one column past the parenthesis; when it
    contains none, by base indentation + 4 spaces.  The lines after the
    first are all the source lines that follow the starting line, up to and
    including the first line (from the starting line on) whose right-trimmed
    text ends with a colon, or up to the end of the file. *)
Theorem get_signature_continuation_indent (n : node) (pi : Z) (line : str) :
  0 < pi ->
  1 <= lineno n ->
  nth_error source_lines (Z.to_nat (lineno n - 1)) = Some line ->
  exists conts,
    get_signature source_lines n pi
    = Ok (join [LF] ((spaces pi ++ lstrip line) :: conts))
    /\ conts
       = map (fun src =>
                spaces (if find (lstrip (spaces pi ++ lstrip line)) LPAREN =? -1
                        then pi + 4
                        else pi + find (lstrip (spaces pi ++ lstrip line)) LPAREN
                             + 1)
                ++ lstrip src)
             (tl (until_colon (skipn (Z.to_nat (lineno n - 1)) source_lines)))
    /\ (forall k lk,
          (Z.to_nat (lineno n - 1) <= k)%nat ->
          nth_error source_lines k = Some lk ->
          ends_colon lk = true ->
          (forall j l, (Z.to_nat (lineno n - 1) <= j < k)%nat ->
                       nth_error source_lines j = Some l ->
                       ends_colon l = false) ->
          length conts = (k - Z.to_nat (lineno n - 1))%nat)
    /\ ((forall j l, (Z.to_nat (lineno n - 1) <= j)%nat ->
                     nth_error source_lines j = Some l ->
                     ends_colon l = false) ->
        length conts
        = (length source_lines - Z.to_nat (lineno n - 1) - 1)%nat)
    /\ forall i c, nth_error conts i = Some c ->
         exists src,
           nth_error source_lines (Z.to_nat (lineno n - 1) + 1 + i) = Some src
           /\ (In LPAREN (spaces pi ++ lstrip line) ->
               exists p, 0 <= p
                 /\ find (lstrip (spaces pi ++ lstrip line)) LPAREN = p
                 /\ nth_error (spaces pi ++ lstrip line) (Z.to_nat (pi + p))
                    = Some LPAREN
                 /\ (forall j, (j < Z.to_nat (pi + p))%nat ->
                       nth_error (spaces pi ++ lstrip line) j <> Some LPAREN)
                 /\ c = spaces (pi + p + 1) ++ lstrip src)
           /\ (~ In LPAREN (spaces pi ++ lstrip line) ->
               c = spaces (pi + 4) ++ lstrip src).
Proof.
  intros Hpi H1 Hline.
  set (idx := Z.to_nat (lineno n - 1)) in *.
  assert (Hlen : (idx < length source_lines)%nat)
    by (apply nth_error_Some; congruence).
  set (fl := spaces pi ++ lstrip line).
  assert (Hfl : first_line_of pi line = fl).
  { unfold first_line_of. now destruct (Z.gtb_spec pi 0); [|lia]. }
  assert (Hstrip : lstrip fl = lstrip line).
  { unfold fl. now rewrite lstrip_spaces_app, lstrip_idem. }
  assert (Hin : In LPAREN fl <-> find (lstrip fl) LPAREN <> -1).
  { rewrite find_absent, Hstrip. unfold fl. rewrite in_app_iff. split.
    - intros [Hs|Hs]; [apply repeat_spec in Hs; discriminate|tauto].
    - intros Hs. right. destruct (in_dec N.eq_dec LPAREN (lstrip line)); tauto. }
  exists (map (continuation_line pi fl)
              (tl (until_colon (skipn idx source_lines)))).
  assert (Hlt : forall l : list str, length (tl l) = (length l - 1)%nat)
    by (intros [|x l]; cbn; lia).
  split; [|split; [|split; [|split]]].
  - rewrite get_signature_header by lia. fold idx.
    rewrite (skipn_S_nth _ _ _ Hline). cbn [until_colon render_header tl].
    now rewrite Hfl.
  - apply map_ext. intros src. unfold continuation_line.
    destruct (Z.gtb_spec pi 0); [|lia].
    now destruct (find (lstrip fl) LPAREN =? -1).
  - intros k lk Hk Hlk He Hfirst. rewrite length_map, Hlt.
    rewrite (until_colon_first _ (k - idx)%nat lk).
    + assert (k < length source_lines)%nat by (apply nth_error_Some; congruence).
      rewrite length_firstn, length_skipn. lia.
    + rewrite nth_error_skipn. now replace (idx + (k - idx))%nat with k by lia.
    + exact He.
    + intros j l Hj Hl. rewrite nth_error_skipn in Hl.
      apply (Hfirst (idx + j)%nat l); [lia|exact Hl].
  - intros Hnone. rewrite length_map, Hlt, until_colon_all.
    + now rewrite length_skipn.
    + intros l Hl. apply In_nth_error in Hl as (j & Hj).
      rewrite nth_error_skipn in Hj. apply (Hnone (idx + j)%nat l); [lia|exact Hj].
  - intros i c Hc. rewrite nth_error_map in Hc.
    destruct (nth_error (tl (until_colon (skipn idx source_lines))) i)
      as [src|] eqn:Hs; [|discriminate].
    injection Hc as <-. exists src. split; [|split].
    + rewrite (skipn_S_nth _ _ _ Hline) in Hs. cbn [until_colon tl] in Hs.
      destruct (ends_colon line); [destruct i; discriminate|].
      apply until_colon_prefix in Hs. rewrite nth_error_skipn in Hs.
      now replace (idx + 1 + i)%nat with (S idx + i)%nat by lia.
    + intros HI. apply Hin in HI. pose proof (find_ge (lstrip fl) LPAREN) as Hge.
      exists (find (lstrip fl) LPAREN). split; [lia|]. split; [reflexivity|].
      destruct (find_present _ _ _ eq_refl HI) as [Hp Hq].
      split; [|split].
      * unfold fl at 1. rewrite nth_error_app2 by (rewrite length_spaces; lia).
        rewrite length_spaces, <- Hstrip.
        now replace (Z.to_nat (pi + find (lstrip fl) LPAREN) - Z.to_nat pi)%nat
          with (Z.to_nat (find (lstrip fl) LPAREN)) by lia.
      * intros j Hj. unfold fl at 1.
        destruct (Nat.lt_ge_cases j (Z.to_nat pi)) as [Hjp|Hjp].
        -- rewrite nth_error_app1 by (rewrite length_spaces; lia).
           unfold spaces. rewrite nth_error_repeat by lia. discriminate.
        -- rewrite nth_error_app2 by (rewrite length_spaces; lia).
           rewrite length_spaces, <- Hstrip. apply Hq. lia.
      * unfold continuation_line. destruct (Z.gtb_spec pi 0); [|lia].
        now destruct (Z.eqb_spec (find (lstrip fl) LPAREN) (-1)).
    + intros HI. rewrite Hin in HI.
      unfold continuation_line. destruct (Z.gtb_spec pi 0); [|lia].
      destruct (Z.eqb_spec (find (lstrip fl) LPAREN) (-1)); [reflexivity|tauto].
Qed.

End HeaderClaims.

Section NormalizeClaims.

(** C6. On a documentation string of two lines or more and a target
    indentation [d], [normalize_docstring] keeps the first line, takes [m],
    the least leading-whitespace width of the non-empty lines after the
    first (0 when all of them are empty), replaces every later non-empty
    line by [d] spaces followed by the line without its first [m]
    characters and every later empty line by the empty string, and joins
    the lines with newlines.  A line is empty when stripping it leaves
    nothing. *)
Theorem normalize_docstring_multiline (doc : str) (d : Z) :
  (2 <= length (splitlines doc))%nat ->
  exists first rest m,
    splitlines doc = first :: rest
    /\ is_min_indent m rest
    /\ normalize_docstring doc d
       = Ok (Some (join [LF]
                (first :: map (fun line => if nonempty_line line
                                           then spaces d ++ skipn m line
                                           else []) rest))).
Proof.
  intros H. destruct (splitlines doc) as [|first rest] eqn:Hs; [cbn in H; lia|].
  exists first, rest,
    (match min_indent_loop rest with None => 0%nat | Some m => m end).
  split; [reflexivity|]. split; [apply min_indent_loop_is_min|].
  apply normalize_docstring_multi; [exact Hs|].
  destruct rest; [cbn in H; lia|discriminate].
Qed.

(** C4, the documentation string at which a second pass differs: three
    lines, the last one a single space. *)
Lemma normalize_docstring_second_pass_differs :
  let doc := lit "a" ++ [LF] ++ lit "b" ++ [LF] ++ lit " " in
  let once := lit "a" ++ [LF] ++ lit "    b" ++ [LF] in
  let twice := lit "a" ++ [LF] ++ lit "    b" in
  length (splitlines doc) = 3%nat
  /\ normalize_docstring doc 4 = Ok (Some once)
  /\ normalize_docstring once 4 = Ok (Some twice)
  /\ once <> twice.
Proof. repeat split. discriminate. Qed.

(** C4, as amended. On a documentation string of two lines or more whose
    last line is non-empty, or that has exactly two lines, a second pass of
    [normalize_docstring] at the same target indentation returns what the
    first pass returned. *)
Theorem normalize_docstring_idempotent (doc : str) (d : Z) :
  (2 <= length (splitlines doc))%nat ->
  nonempty_line (last (splitlines doc) []) = true
  \/ length (splitlines doc) = 2%nat ->
  exists out,
    normalize_docstring doc d = Ok (Some out)
    /\ normalize_docstring out d = Ok (Some out).
Proof.
  intros H2 Hlast.
  destruct (splitlines doc) as [|first rest] eqn:Hs; [cbn in H2; lia|].
  assert (Hrest : rest <> []) by (destruct rest; [cbn in H2; lia|discriminate]).
  set (m0 := match min_indent_loop rest with None => 0%nat | Some m => m end).
  pose proof (min_indent_loop_is_min rest) as Hmin. fold m0 in Hmin.
  set (T := map (normalized_line d m0) rest).
  exists (join [LF] (first :: T)).
  split; [now apply normalize_docstring_multi|].
  assert (HT : T <> []) by (unfold T; destruct rest; [congruence|discriminate]).
  assert (Hsl : Forall (fun l => single_line l = true) (first :: T)).
  { pose proof (splitlines_single_line doc) as Hd. rewrite Hs in Hd.
    inversion Hd as [|? ? Hf Hr]; subst. constructor; [exact Hf|].
    unfold T. rewrite Forall_forall in *. intros t Ht.
    apply in_map_iff in Ht as (l & <- & Hl).
    now apply single_line_normalized, Hr. }
  assert (Hsplit : splitlines (join [LF] (first :: T)) = drop_last_empty (first :: T))
    by now apply splitlines_join.
  assert (Hlr : last (first :: rest) [] = last rest [])
    by (destruct rest; [congruence|reflexivity]).
  destruct (nonempty_line (last rest [])) eqn:Hne.
  - (* the last line is non-empty: the lines are read back as written *)
    assert (HlT : last (first :: T) [] <> []).
    { replace (last (first :: T) []) with (last T [])
        by (destruct T; [congruence|reflexivity]).
      unfold T. rewrite last_map_nil by reflexivity.
      destruct Hmin as [Hle _].
      assert (Hin : In (last rest []) rest).
      { destruct (exists_last Hrest) as (r' & x & ->).
        rewrite last_last. apply in_or_app. right. now left. }
      destruct (normalized_line_nonempty d m0 _ Hne (Hle _ Hin Hne)) as (_ & N & _).
      intros E. rewrite E in N. discriminate. }
    rewrite (drop_last_empty_id _ HlT) in Hsplit.
    rewrite (normalize_docstring_multi _ d first T Hsplit HT).
    rewrite (renormalize_fixed d m0 rest Hmin); [reflexivity|].
    apply min_indent_loop_is_min.
  - (* two lines, the second empty: the result is read back as one line *)
    destruct Hlast as [Hl|Hl]; [rewrite Hlr in Hl; congruence|].
    destruct rest as [|l2 [|? ?]]; try (cbn in Hl; discriminate). cbn in Hne.
    unfold T in *. cbn [map] in *.
    rewrite (normalized_line_empty d m0 l2 Hne) in *.
    unfold normalize_docstring. rewrite Hsplit.
    rewrite join_two_truthy. reflexivity.
Qed.

End NormalizeClaims.

Section ExtractionClaims.

Variable open_read : str -> lib str.
Variable ast_parse : str -> lib (list node).

Lemma try_body_parsed (path source : str) (m : list node) :
  open_read path = Returned source ->
  ast_parse (replace_tabs source) = Returned m ->
  try_body open_read ast_parse path
  = (results <- collect_results (splitlines (replace_tabs source)) m ;;
     Ok (join [LF; LF] results)).
Proof.
  intros Ho Hp. unfold try_body. rewrite Ho. cbn [call bind]. now rewrite Hp.
Qed.

Lemma try_body_terminates (path : str) :
  try_body open_read ast_parse path <> Diverge.
Proof.
  unfold try_body. destruct (open_read path) as [source|e]; [|discriminate].
  cbn [call bind].
  destruct (ast_parse (replace_tabs source)) as [m|e]; [|discriminate].
  cbn [call bind].
  pose proof (collect_results_terminates (splitlines (replace_tabs source)) m).
  destruct (collect_results _ m); [discriminate|discriminate|congruence].
Qed.

Lemma extract_parsed (path source : str) (m : list node) :
  open_read path = Returned source ->
  ast_parse (replace_tabs source) = Returned m ->
  (forall pi n, In (pi, n) (locate m) ->
     1 <= lineno n <= Z.of_nat (length (splitlines (replace_tabs source)))) ->
  exists blocks,
    extract_signatures_and_docstrings open_read ast_parse path = Ok (join [LF; LF] blocks)
    /\ Forall2 (fun p b =>
                  render_block (splitlines (replace_tabs source)) (fst p) (snd p)
                  = Ok b)
               (locate m) blocks.
Proof.
  intros Ho Hp Hr. unfold extract_signatures_and_docstrings.
  rewrite (try_body_parsed _ _ _ Ho Hp), collect_results_locate.
  destruct (mapM_returns (render_located (splitlines (replace_tabs source)))
                         (locate m)) as (blocks & -> & HF).
  - intros [pi n] Hin. apply render_block_returns. now apply (Hr pi n).
  - exists blocks. split; [reflexivity|exact HF].
Qed.

(** C8. When the file is read and parsed and the declarations' line numbers
    are lines of the file, the extraction returns the rendered blocks joined
    by blank lines, one block per located declaration, in the order of
    [locate]: the functions and classes of the module body in their order,
    each class followed by the functions of its body in their order; and
    the located declarations are direct children of the module body or of a
    class of the module body. *)
Theorem extraction_follows_source_order (path source : str) (m : list node) :
  open_read path = Returned source ->
  ast_parse (replace_tabs source) = Returned m ->
  (forall pi n, In (pi, n) (locate m) ->
     1 <= lineno n <= Z.of_nat (length (splitlines (replace_tabs source)))) ->
  exists blocks,
    extract_signatures_and_docstrings open_read ast_parse path = Ok (join [LF; LF] blocks)
    /\ Forall2 (fun p b =>
                  render_block (splitlines (replace_tabs source)) (fst p) (snd p)
                  = Ok b)
               (locate m) blocks
    /\ (forall pi n, In (pi, n) (locate m) ->
          (pi = 0 /\ In n m /\ (kind n = FunctionDef \/ kind n = ClassDef))
          \/ (pi = 4 /\ kind n = FunctionDef
              /\ exists c, In c m /\ kind c = ClassDef /\ In n (body c))).
Proof.
  intros Ho Hp Hr. destruct (extract_parsed _ _ _ Ho Hp Hr) as (blocks & He & HF).
  exists blocks. split; [exact He|]. split; [exact HF|].
  intros pi n. apply locate_direct.
Qed.

Lemma methods_without_async (items : list node) :
  filter is_FunctionDef (without_async_items items)
  = filter is_FunctionDef items.
Proof.
  unfold without_async_items. induction items as [|i items IH]; [reflexivity|].
  destruct i as [k l d b].
  destruct k; cbn [filter is_async is_FunctionDef kind negb]; now rewrite IH.
Qed.

Lemma mapM_map_eq {A B : Type} (f : A -> res B) (l1 : list A) :
  forall l2, map f l1 = map f l2 -> mapM f l1 = mapM f l2.
Proof.
  induction l1 as [|a l1 IH]; intros [|b l2] H; try discriminate; [reflexivity|].
  cbn [map] in H. injection H as Ha Hl. cbn [mapM].
  now rewrite Ha, (IH _ Hl).
Qed.

Lemma locate_without_async (sl : list str) (m : list node) :
  map (render_located sl) (locate (without_async m))
  = map (render_located sl) (locate m).
Proof.
  unfold without_async. induction m as [|n m IH]; [reflexivity|].
  destruct n as [k l d b].
  change (without_async_items (Node k l d b :: m))
    with (if negb (is_async (Node k l d b))
          then Node k l d b :: without_async_items m
          else without_async_items m).
  unfold locate in *.
  destruct k;
    cbn [is_async is_FunctionDef is_ClassDef kind body lineno docstring
         negb map flat_map];
    rewrite ?map_app, ?IH; try reflexivity.
  now rewrite methods_without_async.
Qed.

(** C9, the file at which the text of an [async def] is in the output: the
    function of line 1 is written on one line, so its header runs on to the
    next line that ends with a colon, which is the [async def] line. *)
Lemma async_line_in_a_header :
  let source := lit "def f(): return 1" ++ [LF] ++ lit "async def g():"
                ++ [LF] ++ lit "    pass" in
  let module_body :=
    [ Node FunctionDef 1 None [Node OtherStmt 1 None []];
      Node AsyncFunctionDef 2 None [Node OtherStmt 3 None []] ] in
  let text := lit "def f(): return 1" ++ [LF] ++ lit "async def g():" in
  extract_signatures_and_docstrings
    (fun _ => Returned source) (fun _ => Returned module_body) (lit "g.py")
  = Ok text
  /\ contains text (lit "async def g():") = true.
Proof. split; reflexivity. Qed.

(** C9, as amended. The [async def] declarations produce no block of their
    own, at module level and in class bodies: the extraction returns the same
    text when they are removed from the module body and from the class
    bodies, and every block comes from a plain function definition or a
    class definition. *)
Theorem async_definitions_are_skipped (path : str) :
  extract_signatures_and_docstrings open_read
    (fun source => lib_map without_async (ast_parse source)) path
  = extract_signatures_and_docstrings open_read ast_parse path
  /\ (forall sl m,
        collect_results sl m = mapM (render_located sl) (locate m)
        /\ Forall (fun p => kind (snd p) = FunctionDef \/ kind (snd p) = ClassDef)
                  (locate m)).
Proof.
  split.
  - unfold extract_signatures_and_docstrings, try_body.
    destruct (open_read path) as [source|e]; [|reflexivity]. cbn [call bind].
    destruct (ast_parse (replace_tabs source)) as [m|e]; [|reflexivity].
    cbn [lib_map call bind].
    rewrite !collect_results_locate.
    now rewrite (mapM_map_eq _ _ _ (locate_without_async _ m)).
  - intros sl m. split; [apply collect_results_locate|].
    apply Forall_forall. intros [pi n] Hin.
    apply locate_direct in Hin as [(_ & _ & H)|(_ & H & _)]; cbn; auto.
Qed.

(** C10. [normalize_docstring] returns [None] on the empty string, and a
    declaration whose documentation is the empty string is rendered as one
    without documentation: its header alone. *)
Theorem empty_docstring_renders_header_alone
    (sl results : list str) (k : node_kind) (l d : Z) (b : list node) :
  normalize_docstring [] d = Ok None
  /\ process_node sl results (Node k l (Some []) b)
     = process_node sl results (Node k l None b)
  /\ process_item sl results (Node k l (Some []) b)
     = process_item sl results (Node k l None b)
  /\ process_node sl results (Node FunctionDef l (Some []) b)
     = (signature <- get_signature sl (Node FunctionDef l (Some []) b) 0 ;;
        Ok (results ++ [signature]))
  /\ process_node sl results (Node ClassDef l (Some []) b)
     = (class_sig <- get_signature sl (Node ClassDef l (Some []) b) 0 ;;
        for_each b (process_item sl) (results ++ [class_sig]))
  /\ process_item sl results (Node FunctionDef l (Some []) b)
     = (method_sig <- get_signature sl (Node FunctionDef l (Some []) b) 4 ;;
        Ok (results ++ [method_sig])).
Proof.
  repeat split; reflexivity.
Qed.

End ExtractionClaims.

Section IndentationClaims.

Variable open_read : str -> lib str.
Variable ast_parse : str -> lib (list node).

Lemma Forall2_impl_In {A B : Type} (P Q : A -> B -> Prop) (l : list A) (l' : list B) :
  Forall2 P l l' ->
  (forall a b, In a l -> P a b -> Q a b) ->
  Forall2 Q l l'.
Proof.
  induction 1 as [|a b l l' Hab HF IH]; intros H; constructor.
  - apply H; [now left|exact Hab].
  - apply IH. intros a' b' Ha'. apply H. now right.
Qed.

Lemma leading_ws_lstrip (s : str) : leading_ws (lstrip s) = 0%nat.
Proof. unfold leading_ws. rewrite lstrip_idem. apply Nat.sub_diag. Qed.

Lemma leading_ws_quoted (s : str) : leading_ws (TRIPLE_QUOTE ++ s) = 0%nat.
Proof. unfold leading_ws. cbn [TRIPLE_QUOTE repeat app lstrip]. apply Nat.sub_diag. Qed.

Lemma doc_truthy_text (d : option str) :
  doc_truthy d = true -> truthy (doc_text d) = true.
Proof. destruct d; [exact id|discriminate]. Qed.

(** The lines of one block and how far each part is indented. *)
Lemma render_block_shape (sl : list str) (pi : Z) (n : node) (b : str) :
  1 <= lineno n <= Z.of_nat (length sl) ->
  render_block sl pi n = Ok b ->
  exists src first conts,
    nth_error sl (Z.to_nat (lineno n - 1)) = Some src
    /\ get_signature sl n pi = Ok (join [LF] (first :: conts))
    /\ first = first_line_of pi src
    /\ (doc_truthy (docstring n) = false -> b = join [LF] (first :: conts))
    /\ (doc_truthy (docstring n) = true ->
        exists doc,
          normalize_docstring (doc_text (docstring n)) (pi + 4) = Ok (Some doc)
          /\ b = join [LF] (first :: conts) ++ [LF]
                 ++ spaces (pi + 4) ++ TRIPLE_QUOTE ++ doc ++ TRIPLE_QUOTE
          /\ leading_ws (spaces (pi + 4) ++ TRIPLE_QUOTE ++ doc ++ TRIPLE_QUOTE)
             = Z.to_nat (pi + 4)).
Proof.
  intros Hr Hb.
  destruct (nth_error sl (Z.to_nat (lineno n - 1))) as [src|] eqn:Hsrc.
  2:{ apply nth_error_None in Hsrc. lia. }
  pose proof (get_signature_header sl n pi Hr) as Hsig.
  rewrite (skipn_S_nth _ _ _ Hsrc) in Hsig.
  cbn [until_colon render_header] in Hsig.
  eexists src, _, _. split; [reflexivity|]. split; [exact Hsig|].
  split; [reflexivity|].
  unfold render_block in Hb. rewrite Hsig in Hb. cbn [bind] in Hb.
  destruct (doc_truthy (docstring n)) eqn:Hd.
  - split; [discriminate|]. intros _.
    destruct (normalize_docstring_returns (doc_text (docstring n)) (pi + 4))
      as (o & Ho & Hsome).
    destruct (Hsome (doc_truthy_text _ Hd)) as (doc & ->).
    rewrite Ho in Hb. cbn [bind fmt] in Hb. injection Hb as <-.
    exists doc. split; [exact Ho|]. split; [reflexivity|].
    rewrite leading_ws_spaces_app, leading_ws_quoted. lia.
  - split; [|discriminate]. intros _. now injection Hb as <-.
Qed.

(** C3, the extraction at which a top-level docstring is not at depth 0:
    a function with the one-line documentation [hi] has it rendered on a
    line that starts with four spaces. *)
Lemma top_level_docstring_at_depth_4 :
  let source := lit "def foo(a, b):" ++ [LF] ++ lit "    " ++ TRIPLE_QUOTE
                ++ lit "hi" ++ TRIPLE_QUOTE ++ [LF] ++ lit "    pass" in
  let module_body := [Node FunctionDef 1 (Some (lit "hi")) []] in
  let doc_line := lit "    " ++ TRIPLE_QUOTE ++ lit "hi" ++ TRIPLE_QUOTE in
  let text := lit "def foo(a, b):" ++ [LF] ++ doc_line in
  extract_signatures_and_docstrings
    (fun _ => Returned source) (fun _ => Returned module_body) (lit "foo.py")
  = Ok text
  /\ splitlines text = [lit "def foo(a, b):"; doc_line]
  /\ leading_ws doc_line = 4%nat
  /\ leading_ws doc_line <> 0%nat.
Proof. repeat split. discriminate. Qed.

(** C3, as amended. In the extraction of a file that is read and parsed,
    with the declarations' line numbers in the file, every block is the
    header of its declaration followed, when the declaration has
    documentation, by a line break and the documentation between triple
    quotes.  For a top-level declaration the first header line is the
    source line as it is, the documentation opens on a line indented by
    exactly 4 spaces and is normalized at depth 4.  For a method the first
    header line is the source line re-indented to exactly 4 spaces, the
    documentation opens on a line indented by exactly 8 spaces and is
    normalized at depth 8.  There is no other depth. *)
Theorem extraction_indentation_depths (path source : str) (m : list node) :
  open_read path = Returned source ->
  ast_parse (replace_tabs source) = Returned m ->
  (forall pi n, In (pi, n) (locate m) ->
     1 <= lineno n <= Z.of_nat (length (splitlines (replace_tabs source)))) ->
  exists blocks,
    extract_signatures_and_docstrings open_read ast_parse path
    = Ok (join [LF; LF] blocks)
    /\ Forall2
         (fun p b =>
            exists src first conts,
              (fst p = 0 \/ fst p = 4)
              /\ nth_error (splitlines (replace_tabs source))
                           (Z.to_nat (lineno (snd p) - 1)) = Some src
              /\ get_signature (splitlines (replace_tabs source)) (snd p) (fst p)
                 = Ok (join [LF] (first :: conts))
              /\ (fst p = 0 -> first = src)
              /\ (fst p = 4 ->
                  first = spaces 4 ++ lstrip src /\ leading_ws first = 4%nat)
              /\ (doc_truthy (docstring (snd p)) = false ->
                  b = join [LF] (first :: conts))
              /\ (doc_truthy (docstring (snd p)) = true ->
                  exists doc,
                    normalize_docstring (doc_text (docstring (snd p))) (fst p + 4)
                    = Ok (Some doc)
                    /\ b = join [LF] (first :: conts) ++ [LF]
                           ++ spaces (fst p + 4) ++ TRIPLE_QUOTE ++ doc
                           ++ TRIPLE_QUOTE
                    /\ leading_ws (spaces (fst p + 4) ++ TRIPLE_QUOTE ++ doc
                                   ++ TRIPLE_QUOTE)
                       = Z.to_nat (fst p + 4)))
         (locate m) blocks.
Proof.
  intros Ho Hp Hr.
  destruct (extract_parsed open_read ast_parse _ _ _ Ho Hp Hr) as (blocks & He & HF).
  exists blocks. split; [exact He|].
  apply (Forall2_impl_In _ _ _ _ HF). intros [pi n] b Hin Hb. cbn [fst snd] in *.
  destruct (render_block_shape _ _ _ _ (Hr pi n Hin) Hb)
    as (src & first & conts & Hsrc & Hsig & Hfirst & Hnodoc & Hdoc).
  exists src, first, conts.
  split.
  { apply locate_direct in Hin as [(-> & _)|(-> & _)]; auto. }
  split; [exact Hsrc|]. split; [exact Hsig|].
  split; [intros ->; exact Hfirst|].
  split; [|split; assumption].
  intros ->. subst first. split; [reflexivity|].
  change (first_line_of 4 src) with (spaces 4 ++ lstrip src).
  now rewrite leading_ws_spaces_app, leading_ws_lstrip.
Qed.

(** C1, the call whose result is not a single line: the path holds a line
    feed and the file does not exist. *)
Lemma error_text_of_two_lines :
  let path := lit "a" ++ [LF] ++ lit "b" in
  let no_such_file :=
    Exn "FileNotFoundError" (lit "[Errno 2] No such file or directory: 'a\nb'") in
  let text := lit "Error extracting signatures from a" ++ [LF]
              ++ lit "b: [Errno 2] No such file or directory: 'a\nb'" in
  extract_signatures_and_docstrings
    (fun _ => Raised no_such_file) (fun _ => Returned []) path
  = Ok text
  /\ single_line text = false
  /\ length (splitlines text) = 2%nat.
Proof. repeat split. Qed.

(** C1, as amended. Every call of [extract_signatures_and_docstrings]
    returns a string and raises nothing.  When reading, parsing or rendering
    raises an exception [e], the string is
    [Error extracting signatures from <path>: <message>] with the path and
    [str(e)] copied as they are; it is a single line when the path and the
    message are.  So every file of a batch gets its string. *)
Theorem extraction_returns_error_text (path : str) :
  (exists text, extract_signatures_and_docstrings open_read ast_parse path = Ok text)
  /\ (forall e, try_body open_read ast_parse path = Raise e ->
        extract_signatures_and_docstrings open_read ast_parse path
        = Ok (lit "Error extracting signatures from " ++ path ++ lit ": "
              ++ exn_msg e)
        /\ (single_line path = true -> single_line (exn_msg e) = true ->
            single_line (lit "Error extracting signatures from " ++ path
                         ++ lit ": " ++ exn_msg e) = true))
  /\ (forall e, open_read path = Raised e ->
        try_body open_read ast_parse path = Raise e)
  /\ (forall source e, open_read path = Returned source ->
        ast_parse (replace_tabs source) = Raised e ->
        try_body open_read ast_parse path = Raise e)
  /\ (forall source m e, open_read path = Returned source ->
        ast_parse (replace_tabs source) = Returned m ->
        collect_results (splitlines (replace_tabs source)) m = Raise e ->
        try_body open_read ast_parse path = Raise e)
  /\ (forall paths, exists texts,
        map (extract_signatures_and_docstrings open_read ast_parse) paths
        = map Ok texts).
Proof.
  assert (Hret : forall p, exists text,
             extract_signatures_and_docstrings open_read ast_parse p = Ok text).
  { intros p. unfold extract_signatures_and_docstrings.
    pose proof (try_body_terminates open_read ast_parse p) as Ht.
    destruct (try_body open_read ast_parse p); [eauto|eauto|congruence]. }
  split; [apply Hret|]. split; [|split; [|split; [|split]]].
  - intros e He. unfold extract_signatures_and_docstrings. rewrite He.
    split; [reflexivity|]. intros Hp Hm.
    now rewrite !single_line_app, Hp, Hm.
  - intros e He. unfold try_body. now rewrite He.
  - intros source e Ho He. unfold try_body. rewrite Ho. cbn [call bind].
    now rewrite He.
  - intros source m e Ho Hp He.
    rewrite (try_body_parsed open_read ast_parse _ _ _ Ho Hp). now rewrite He.
  - induction paths as [|p paths (texts & IH)]; [now exists []|].
    destruct (Hret p) as (text & Hp). exists (text :: texts).
    cbn [map]. now rewrite Hp, IH.
Qed.

End IndentationClaims.

(** ** The claims on the example file *)

Lemma get_signature_stops_at_first_colon_example :
  exists ls,
    get_signature Example.lines Example.method_m 4 = Ok (join [LF] ls)
    /\ length ls = 2%nat
    /\ Forall (fun l => 4 <= Z.of_nat (length l)) ls.
Proof.
  destruct (get_signature_stops_at_first_colon
              Example.lines Example.method_m 4 3 (lit "            x):"))
    as (ls & Hsig & Hlen & _ & Hall).
  - cbn. lia.
  - cbn. lia.
  - reflexivity.
  - reflexivity.
  - intros j l Hj Hl. assert (j = 2%nat) as -> by (cbn in Hj; lia).
    injection Hl as <-. reflexivity.
  - exists ls. repeat split; assumption.
Defined.

Lemma get_signature_stops_at_eof_example :
  exists ls,
    get_signature Example.cut_lines (Node FunctionDef 1 None []) 0
    = Ok (join [LF] ls)
    /\ length ls = 2%nat.
Proof.
  destruct (get_signature_stops_at_eof
              Example.cut_lines (Node FunctionDef 1 None []) 0)
    as (ls & Hsig & Hlen & _).
  - cbn. lia.
  - intros [|[|j]] l _ Hl; cbn in Hl;
      [injection Hl as <-; reflexivity ..|destruct j; discriminate].
  - exists ls. split; assumption.
Defined.

Lemma get_signature_continuation_indent_example :
  get_signature Example.lines Example.method_m 4
  = Ok (join [LF] [lit "    def m(self,"; lit "          x):"]).
Proof.
  destruct (get_signature_continuation_indent
              Example.lines Example.method_m 4 (lit "    def m(self,"))
    as (conts & Hsig & Hconts & _).
  - lia.
  - cbn. lia.
  - reflexivity.
  - rewrite Hsig, Hconts. reflexivity.
Defined.

Lemma normalize_docstring_multiline_example :
  exists out,
    normalize_docstring (lit "first" ++ [LF] ++ lit "  more" ++ [LF] ++ lit "less") 8
    = Ok (Some out).
Proof.
  destruct (normalize_docstring_multiline
              (lit "first" ++ [LF] ++ lit "  more" ++ [LF] ++ lit "less") 8)
    as (first & rest & m & _ & _ & H).
  - cbn. lia.
  - eexists. exact H.
Defined.

Lemma normalize_docstring_idempotent_example :
  exists out,
    normalize_docstring (lit "first" ++ [LF] ++ lit "  more" ++ [LF] ++ lit "less") 8
    = Ok (Some out)
    /\ normalize_docstring out 8 = Ok (Some out).
Proof.
  apply (normalize_docstring_idempotent
           (lit "first" ++ [LF] ++ lit "  more" ++ [LF] ++ lit "less") 8).
  - cbn. lia.
  - left. reflexivity.
Defined.

Lemma example_line_numbers (pi : Z) (n : node) :
  In (pi, n) (locate Example.module_body) ->
  1 <= lineno n
  <= Z.of_nat (length (splitlines (replace_tabs Example.source))).
Proof.
  intros Hin. cbn in Hin.
  destruct Hin as [[= <- <-]|[[= <- <-]|[[= <- <-]|[]]]]; cbn; lia.
Defined.

Lemma extraction_follows_source_order_example :
  exists blocks,
    extract_signatures_and_docstrings Example.open_read Example.ast_parse
                                      (lit "a.py")
    = Ok (join [LF; LF] blocks)
    /\ length blocks = 3%nat.
Proof.
  destruct (extraction_follows_source_order
              Example.open_read Example.ast_parse (lit "a.py")
              Example.source Example.module_body
              eq_refl eq_refl example_line_numbers)
    as (blocks & Hext & Hall & _).
  exists blocks. split; [exact Hext|].
  apply Forall2_length in Hall. rewrite <- Hall. reflexivity.
Defined.

Lemma extraction_indentation_depths_example :
  exists blocks,
    extract_signatures_and_docstrings Example.open_read Example.ast_parse
                                      (lit "a.py")
    = Ok (join [LF; LF] blocks)
    /\ length blocks = 3%nat.
Proof.
  destruct (extraction_indentation_depths
              Example.open_read Example.ast_parse (lit "a.py")
              Example.source Example.module_body
              eq_refl eq_refl example_line_numbers)
    as (blocks & Hext & Hall).
  exists blocks. split; [exact Hext|].
  apply Forall2_length in Hall. rewrite <- Hall. reflexivity.
Defined.

Lemma extraction_returns_error_text_example :
  extract_signatures_and_docstrings Example.open_denied Example.ast_parse
                                    (lit "x.py")
  = Ok (lit "Error extracting signatures from x.py: [Errno 13] Permission denied: 'x.py'").
Proof.
  destruct (extraction_returns_error_text
              Example.open_denied Example.ast_parse (lit "x.py"))
    as (_ & Herr & _).
  destruct (Herr (Exn "PermissionError"
                      (lit "[Errno 13] Permission denied: 'x.py'")) eq_refl)
    as [H _].
  exact H.
Defined.

(** * Further properties *)

(** ** Decimal numbers *)

Section DecimalFacts.

Lemma digits_fuel_enough (fuel : nat) :
  forall n fuel', (n < fuel)%nat -> (n < fuel')%nat ->
                  digits_fuel fuel n = digits_fuel fuel' n.
Proof.
  induction fuel as [|fuel IH]; intros n [|fuel'] H H'; try lia.
  cbn [digits_fuel]. destruct (Nat.ltb_spec n 10); [reflexivity|].
  assert (n / 10 < n)%nat by (apply Nat.div_lt; lia).
  f_equal. apply IH; lia.
Qed.

Lemma str_of_nat_eq (n : nat) :
  str_of_nat n
  = if (n <? 10)%nat then [digit_char n]
    else str_of_nat (n / 10) ++ [digit_char (n mod 10)].
Proof.
  unfold str_of_nat at 1. cbn [digits_fuel].
  destruct (Nat.ltb_spec n 10); [reflexivity|].
  assert (n / 10 < n)%nat by (apply Nat.div_lt; lia).
  f_equal. apply digits_fuel_enough; lia.
Qed.

Lemma length_str_of_nat_pos (n : nat) : (1 <= length (str_of_nat n))%nat.
Proof.
  rewrite str_of_nat_eq. destruct (n <? 10)%nat; [cbn; lia|].
  rewrite length_app. cbn. lia.
Qed.

(** A greater number is not written with fewer digits. *)
Lemma length_str_of_nat_mono (m : nat) :
  forall n, (n <= m)%nat ->
            (length (str_of_nat n) <= length (str_of_nat m))%nat.
Proof.
  induction m as [m IH] using (well_founded_induction lt_wf). intros n Hn.
  rewrite (str_of_nat_eq n), (str_of_nat_eq m).
  destruct (Nat.ltb_spec n 10) as [Hn10|Hn10];
    destruct (Nat.ltb_spec m 10) as [Hm10|Hm10]; try lia.
  - cbn. lia.
  - rewrite length_app. cbn. lia.
  - rewrite !length_app. cbn [length].
    assert (m / 10 < m)%nat by (apply Nat.div_lt; lia).
    assert (n / 10 <= m / 10)%nat by (apply Nat.Div0.div_le_mono; lia).
    specialize (IH (m / 10)%nat ltac:(lia) (n / 10)%nat ltac:(lia)). lia.
Qed.

Lemma digit_value_digit_char (d : nat) :
  (d < 10)%nat -> digit_value (digit_char d) = Some d.
Proof.
  intros H. do 10 (destruct d as [|d]; [reflexivity|]). lia.
Qed.

Lemma nat_of_digits_app (s t : str) :
  forall acc,
    nat_of_digits acc (s ++ t)
    = match nat_of_digits acc s with
      | Some a => nat_of_digits a t
      | None => None
      end.
Proof.
  induction s as [|c s IH]; intros acc; [reflexivity|].
  cbn [app nat_of_digits]. destruct (digit_value c); [apply IH|reflexivity].
Qed.

(** The digits written for [n] read back as [n]. *)
Lemma nat_of_digits_str_of_nat (n : nat) :
  nat_of_digits 0 (str_of_nat n) = Some n.
Proof.
  induction n as [n IH] using (well_founded_induction lt_wf).
  rewrite str_of_nat_eq. destruct (Nat.ltb_spec n 10) as [H|H].
  - cbn [nat_of_digits]. now rewrite (digit_value_digit_char n H).
  - assert (n / 10 < n)%nat by (apply Nat.div_lt; lia).
    rewrite nat_of_digits_app, (IH _ H0). cbn [nat_of_digits].
    rewrite digit_value_digit_char by (apply Nat.mod_upper_bound; lia).
    f_equal. pose proof (Nat.div_mod_eq n 10). lia.
Qed.

Lemma str_of_nat_digits (n : nat) (c : char) :
  In c (str_of_nat n) -> in_range 48 57 c = true.
Proof.
  induction n as [n IH] using (well_founded_induction lt_wf).
  rewrite str_of_nat_eq. destruct (Nat.ltb_spec n 10) as [H|H].
  - intros [<-|[]]. do 10 (destruct n as [|n]; [reflexivity|]). lia.
  - assert (n / 10 < n)%nat by (apply Nat.div_lt; lia).
    intros Hc. apply in_app_iff in Hc as [Hc|[<-|[]]]; [now apply (IH (n / 10)%nat)|].
    assert (Hm : (n mod 10 < 10)%nat) by (apply Nat.mod_upper_bound; lia).
    revert Hm. generalize (n mod 10)%nat. intros d Hd.
    do 10 (destruct d as [|d]; [reflexivity|]). lia.
Qed.

Lemma lstrip_format_width (width n : nat) :
  lstrip (format_width width n) = str_of_nat n.
Proof.
  unfold format_width. rewrite lstrip_app_ws.
  - pose proof (length_str_of_nat_pos n).
    destruct (str_of_nat n) as [|c t] eqn:E; [cbn in *; lia|].
    cbn [lstrip]. 
    assert (Hc : in_range 48 57 c = true)
      by (apply (str_of_nat_digits n); rewrite E; now left).
    replace (isspace c) with false; [reflexivity|].
    unfold in_range in Hc. apply andb_prop in Hc as [H1 H2].
    apply N.leb_le in H1, H2. unfold isspace, in_range.
    repeat match goal with
           | |- context [(?a <=? c)%N] => destruct (N.leb_spec a c); try lia
           | |- context [(c <=? ?a)%N] => destruct (N.leb_spec c a); try lia
           | |- context [(c =? ?a)%N] => destruct (N.eqb_spec c a); try lia
           end; reflexivity.
  - intros c Hc. apply repeat_spec in Hc. now subst.
Qed.

Lemma length_format_width (width n : nat) :
  (length (str_of_nat n) <= width)%nat ->
  length (format_width width n) = width.
Proof.
  intros H. unfold format_width. rewrite length_app, repeat_length. lia.
Qed.

End DecimalFacts.

(** ** [add_line_numbers] *)

Section LineNumberFacts.

Lemma combine_seq_nth {A : Type} (l : list A) :
  forall s i,
    nth_error (combine (seq s (length l)) l) i
    = option_map (fun x => ((s + i)%nat, x)) (nth_error l i).
Proof.
  induction l as [|a l IH]; intros s [|i]; cbn [length seq combine nth_error option_map];
    try reflexivity.
  - now rewrite Nat.add_0_r.
  - rewrite IH. now replace (S s + i)%nat with (s + S i)%nat by lia.
Qed.

Lemma map_combine_seq {A : Type} (h : nat * A -> A) (l : list A) :
  forall s,
    (forall i x, nth_error l i = Some x -> h ((s + i)%nat, x) = x) ->
    map h (combine (seq s (length l)) l) = l.
Proof.
  induction l as [|a l IH]; intros s H; [reflexivity|].
  cbn [length seq combine map]. f_equal.
  - specialize (H 0%nat a eq_refl). now rewrite Nat.add_0_r in H.
  - apply IH. intros i x Hx.
    replace (S s + i)%nat with (s + S i)%nat by lia. now apply H.
Qed.

Lemma single_line_str_of_nat (n : nat) : single_line (str_of_nat n) = true.
Proof.
  apply forallb_forall. intros c Hc. apply str_of_nat_digits in Hc.
  unfold in_range in Hc. apply andb_prop in Hc as [H1 H2].
  apply N.leb_le in H1, H2. unfold is_linebreak, in_range.
  repeat match goal with
         | |- context [(?a <=? c)%N] => destruct (N.leb_spec a c); try lia
         | |- context [(c <=? ?a)%N] => destruct (N.leb_spec c a); try lia
         | |- context [(c =? ?a)%N] => destruct (N.eqb_spec c a); try lia
         end; reflexivity.
Qed.

Lemma single_line_repeat_space (k : nat) : single_line (repeat SPACE k) = true.
Proof. induction k as [|k IH]; [reflexivity|cbn; exact IH]. Qed.

Lemma last_nonempty (L : list str) :
  L <> [] -> (forall x, In x L -> x <> []) -> last L [] <> [].
Proof.
  intros HL H. destruct (exists_last HL) as (L' & x & ->).
  rewrite last_last. apply H, in_or_app. right. now left.
Qed.

Lemma format_width_nonempty (width n : nat) (rest : str) :
  format_width width n ++ rest <> [].
Proof.
  unfold format_width. pose proof (length_str_of_nat_pos n) as H.
  intros E. apply (f_equal (@length _)) in E.
  rewrite !length_app in E. cbn [length] in E. lia.
Qed.

(** The numbered lines are read back one by one from the text returned. *)
Lemma add_line_numbers_lines (content : str) :
  splitlines (add_line_numbers content)
  = map (fun '(i, line) =>
           format_width (length (str_of_nat (length (splitlines content))))
                        (i + 1) ++ lit "  " ++ line)
        (enumerate (splitlines content)).
Proof.
  unfold add_line_numbers. cbv zeta.
  set (padding := length (str_of_nat (length (splitlines content)))).
  set (f := fun '(i, line) => format_width padding (i + 1) ++ lit "  " ++ line).
  pose proof (splitlines_single_line content) as Hsl.
  destruct (splitlines content) as [|l0 ls] eqn:Hs; [reflexivity|].
  rewrite splitlines_join.
  - apply drop_last_empty_id, last_nonempty; [discriminate|].
    intros x Hx. apply in_map_iff in Hx as ([i line] & <- & _).
    apply format_width_nonempty.
  - apply Forall_forall. intros x Hx.
    apply in_map_iff in Hx as ([i line] & <- & Hin).
    unfold enumerate in Hin. apply in_combine_r in Hin.
    rewrite Forall_forall in Hsl. unfold f, format_width.
    rewrite !single_line_app, single_line_repeat_space,
      single_line_str_of_nat, (Hsl _ Hin). reflexivity.
Qed.

End LineNumberFacts.

Section LineNumberClaims.

(** X1. Every line of the numbered text is the line at the same place in the
    content, preceded by its 1-based number in decimal, right-aligned with
    spaces in the width of the greatest number, and two spaces: the
    contents of all lines start in the same column. *)
Theorem add_line_numbers_aligned (content : str) (i : nat) (line : str) :
  nth_error (splitlines content) i = Some line ->
  exists pad,
    nth_error (splitlines (add_line_numbers content)) i
    = Some (pad ++ str_of_nat (i + 1) ++ lit "  " ++ line)
    /\ (forall c, In c pad -> c = SPACE)
    /\ (length pad + length (str_of_nat (i + 1)))%nat
       = length (str_of_nat (length (splitlines content)))
    /\ nat_of_digits 0 (str_of_nat (i + 1)) = Some (i + 1)%nat.
Proof.
  intros Hl.
  assert (Hi : (i < length (splitlines content))%nat)
    by (apply nth_error_Some; congruence).
  pose proof (length_str_of_nat_mono (length (splitlines content)) (i + 1)%nat
                ltac:(lia)) as Hm.
  rewrite add_line_numbers_lines, nth_error_map.
  unfold enumerate. rewrite combine_seq_nth. unfold str in *. rewrite Hl.
  cbn [option_map Nat.add].
  unfold format_width. eexists. split; [now rewrite <- app_assoc|].
  split; [intros c Hc; now apply repeat_spec in Hc|].
  split; [rewrite repeat_length; lia|apply nat_of_digits_str_of_nat].
Qed.

(** X2. Numbering keeps the lines: the numbered text has as many lines as
    the content, and cutting the number column (the width of the greatest
    number plus two) off every line gives the lines of the content back. *)
Theorem add_line_numbers_round_trip (content : str) :
  map (skipn (length (str_of_nat (length (splitlines content))) + 2))
      (splitlines (add_line_numbers content))
  = splitlines content
  /\ length (splitlines (add_line_numbers content))
     = length (splitlines content).
Proof.
  rewrite add_line_numbers_lines. split.
  - rewrite map_map. unfold enumerate. apply map_combine_seq.
    intros i x Hx.
    assert (Hi : (i < length (splitlines content))%nat)
      by (apply nth_error_Some; unfold str in *; congruence).
    pose proof (length_str_of_nat_mono (length (splitlines content)) (i + 1)%nat
                  ltac:(lia)) as Hm.
    cbn [Nat.add]. rewrite app_assoc, skipn_app.
    rewrite length_app, (length_format_width _ _ Hm). cbn [length lit map].
    rewrite skipn_all2 by (rewrite length_app, (length_format_width _ _ Hm); cbn; lia).
    now rewrite Nat.sub_diag.
  - unfold enumerate. rewrite length_map, length_combine, length_seq. lia.
Qed.

End LineNumberClaims.

(** ** Substrings *)

Section ContainsFacts.

Lemma startswith_length (s p : str) :
  startswith s p = true -> (length p <= length s)%nat.
Proof.
  revert s. induction p as [|c p IH]; intros [|d s] H; cbn in *; try lia;
    try discriminate.
  apply andb_prop in H as [_ H]. specialize (IH _ H). lia.
Qed.

Lemma contains_length (s needle : str) :
  contains s needle = true -> (length needle <= length s)%nat.
Proof.
  induction s as [|c s IH]; cbn [contains]; intros H.
  - rewrite orb_false_r in H. now apply startswith_length in H.
  - apply orb_prop in H as [H|H].
    + now apply startswith_length in H.
    + specialize (IH H). cbn [length]. lia.
Qed.

(** A needle found in a string is found in it at some place. *)
Lemma contains_iff (s needle : str) :
  contains s needle = true <-> exists a b, s = a ++ needle ++ b.
Proof.
  assert (Hsw : forall p s, startswith s p = true <-> exists b, s = p ++ b).
  { clear. induction p as [|c p IH]; intros s.
    - split; [intros _; now exists s|intros _; now destruct s].
    - destruct s as [|d s]; cbn [startswith].
      + split; [discriminate|intros (b & Hb); discriminate].
      + rewrite andb_true_iff, IH, N.eqb_eq. split.
        * intros (-> & b & ->). now exists b.
        * intros (b & [= -> ->]). eauto. }
  induction s as [|c s IH]; cbn [contains].
  - rewrite orb_false_r, Hsw. split.
    + intros (b & Hb). now exists [], b.
    + intros (a & b & Hab). destruct a; [eauto|discriminate].
  - rewrite orb_true_iff, Hsw, IH. split.
    + intros [(b & Hb)|(a & b & ->)]; [now exists [], b|now exists (c :: a), b].
    + intros (a & b & Hab). destruct a as [|d a].
      * left. now exists b.
      * right. injection Hab as -> ->. eauto.
Qed.

Lemma contains_head (s : str) (p : char) (needle : str) :
  contains s (p :: needle) = true -> In p s.
Proof.
  rewrite contains_iff. intros (a & b & ->).
  apply in_or_app. right. now left.
Qed.

(** A needle does not reach across a character that it does not hold. *)
Lemma contains_app_free (x y needle : str) (c : char) :
  needle <> [] -> ~ In c needle ->
  contains (x ++ c :: y) needle = contains x needle || contains y needle.
Proof.
  intros Hne Hc.
  destruct (contains x needle || contains y needle) eqn:E.
  - apply contains_iff. apply orb_prop in E as [E|E];
      apply contains_iff in E as (a & b & ->).
    + exists a, (b ++ c :: y). now rewrite <- !app_assoc.
    + exists (x ++ c :: a), b. now rewrite <- !app_assoc.
  - apply orb_false_elim in E as [Ex Ey].
    destruct (contains (x ++ c :: y) needle) eqn:F; [|reflexivity].
    apply contains_iff in F as (a & b & Hab). exfalso.
    (* the needle lies before [c], after it, or across it *)
    apply app_eq_app in Hab as (l & [(Hx & Hl)|(Ha & Hl)]).
    + symmetry in Hl. apply app_eq_app in Hl as (l' & [(Hl' & Hy)|(Hn & Hy)]).
      * assert (contains x needle = true); [|congruence].
        apply contains_iff. exists a, l'. rewrite Hx, Hl'. reflexivity.
      * destruct l' as [|c' l'].
        -- assert (contains x needle = true); [|congruence].
           apply contains_iff. exists a, []. 
           rewrite app_nil_r in Hn. now rewrite Hx, Hn, app_nil_r.
        -- injection Hy as <- _. apply Hc. rewrite Hn.
           apply in_or_app. right. now left.
    + destruct l as [|c' l].
      * destruct needle as [|p needle]; [congruence|].
        injection Hl as -> _. apply Hc. now left.
      * injection Hl as <- ->.
        assert (contains (l ++ needle ++ b) needle = true); [|congruence].
        apply contains_iff. now exists l, b.
Qed.

Lemma contains_join (lines : list str) (needle : str) :
  needle <> [] -> ~ In LF needle ->
  contains (join [LF] lines) needle = existsb (fun l => contains l needle) lines.
Proof.
  intros Hne Hc. induction lines as [|p lines IH].
  - destruct needle; [congruence|reflexivity].
  - destruct lines as [|q lines].
    + cbn [join existsb]. now rewrite orb_false_r.
    + change (join [LF] (p :: q :: lines)) with (p ++ LF :: join [LF] (q :: lines)).
      rewrite contains_app_free, IH by assumption. reflexivity.
Qed.

(** The first line reported by [splitlines] starts the string, and every
    line reported is a piece of it. *)
Lemma splitlines_first_prefix (s : str) (l : str) (ls : list str) :
  splitlines s = l :: ls -> exists b, s = l ++ b.
Proof.
  revert l ls. induction s as [|c s IH]; intros l ls; [discriminate|].
  cbn [splitlines]. destruct (is_linebreak c).
  - intros [= <- _]. now exists (c :: s).
  - destruct (splitlines s) as [|l1 ls1] eqn:E.
    + intros [= <- _]. apply splitlines_nil_iff in E. subst. now exists [].
    + intros [= <- _]. destruct (IH _ _ eq_refl) as (b & ->). now exists b.
Qed.

Lemma splitlines_piece (s l : str) :
  In l (splitlines s) -> exists a b, s = a ++ l ++ b.
Proof.
  assert (H : forall n s, (length s <= n)%nat -> In l (splitlines s) ->
                          exists a b, s = a ++ l ++ b).
  { clear s. induction n as [|n IH]; intros [|c s] Hn; cbn [length] in Hn;
      try (intros []; fail); [lia|].
    cbn [splitlines]. destruct (is_linebreak c).
    - intros [<-|Hin]; [now exists [], (c :: s)|].
      assert (Hs : exists a b, s = a ++ l ++ b).
      { destruct (c =? CR)%N; [|apply IH; [lia|exact Hin]].
        destruct s as [|d s]; [destruct Hin|].
        destruct (d =? LF)%N; [|apply IH; [lia|exact Hin]].
        destruct (IH s ltac:(cbn [length] in Hn; lia) Hin) as (a & b & ->).
        now exists (d :: a), b. }
      destruct Hs as (a & b & ->). now exists (c :: a), b.
    - destruct (splitlines s) as [|l1 ls1] eqn:E.
      + intros [<-|[]]. apply splitlines_nil_iff in E. subst. now exists [], [].
      + intros [<-|Hin].
        * destruct (splitlines_first_prefix _ _ _ E) as (b & ->).
          now exists [], b.
        * destruct (IH s ltac:(lia)) as (a & b & ->); [rewrite E; now right|].
          now exists (c :: a), b. }
  now apply (H (length s)).
Qed.

Lemma contains_piece (s a l b needle : str) :
  s = a ++ l ++ b -> contains l needle = true -> contains s needle = true.
Proof.
  intros -> H. apply contains_iff in H as (a' & b' & ->). apply contains_iff.
  exists (a ++ a'), (b' ++ b). now rewrite <- !app_assoc.
Qed.

End ContainsFacts.

(** ** The printers *)

Section PrinterFacts.

Lemma split_go_nonempty (sep s : str) :
  forall skip cur, split_go sep s skip cur <> [].
Proof.
  induction s as [|c s IH]; intros skip cur; cbn [split_go]; [discriminate|].
  destruct skip; [|apply IH].
  destruct (startswith (c :: s) sep); [discriminate|apply IH].
Qed.

Lemma getitem_nonempty {A : Type} (l : list A) :
  l <> [] ->
  (exists x, getitem l 0 = Ok x) /\ (exists y, getitem l (-1) = Ok y).
Proof.
  intros H. split.
  - destruct l as [|a l]; [congruence|]. exists a.
    now apply (getitem_nat (a :: l) 0).
  - destruct (exists_last H) as (l' & y & ->). exists y. apply getitem_last.
Qed.

Lemma repeat_snoc {A : Type} (x : A) (n : nat) :
  repeat x n ++ [x] = repeat x (S n).
Proof. induction n as [|n IH]; [reflexivity|]. cbn. now rewrite IH. Qed.

(** The loop stops at the first run of backticks, from [n] on, that is not
    in the content. *)
Lemma backticks_loop_spec (content : str) (fuel : nat) :
  forall n,
    (length content + 1 < n + fuel)%nat -> (1 <= fuel)%nat ->
    exists m,
      (n <= m)%nat
      /\ backticks_loop fuel content (repeat BACKTICK n) = Ok (repeat BACKTICK m)
      /\ contains content (repeat BACKTICK m) = false
      /\ (forall k, (n <= k < m)%nat ->
                    contains content (repeat BACKTICK k) = true).
Proof.
  induction fuel as [|fuel IH]; intros n Hf H1; [lia|].
  cbn [backticks_loop].
  destruct (contains content (repeat BACKTICK n)) eqn:E.
  - pose proof (contains_length _ _ E) as Hl. rewrite repeat_length in Hl.
    rewrite repeat_snoc.
    destruct (IH (S n) ltac:(lia) ltac:(lia)) as (m & Hm & Hloop & Hnot & Hall).
    exists m. split; [lia|]. split; [exact Hloop|]. split; [exact Hnot|].
    intros k Hk. destruct (Nat.eq_dec k n) as [->|Hne]; [exact E|].
    apply Hall. lia.
  - exists n. split; [lia|]. split; [reflexivity|]. split; [exact E|].
    intros k Hk. lia.
Qed.

Lemma no_backtick_no_run (x : str) (k : nat) :
  (1 <= k)%nat -> ~ In BACKTICK x -> contains x (repeat BACKTICK k) = false.
Proof.
  intros Hk Hx. destruct k as [|k]; [lia|].
  destruct (contains x (repeat BACKTICK (S k))) eqn:E; [|reflexivity].
  cbn [repeat] in E. now apply contains_head in E.
Qed.

(** Numbering the lines brings no run of backticks that the content does
    not have. *)
Lemma add_line_numbers_backticks (content : str) (k : nat) :
  (1 <= k)%nat ->
  contains content (repeat BACKTICK k) = false ->
  contains (add_line_numbers content) (repeat BACKTICK k) = false.
Proof.
  intros Hk Hc. unfold add_line_numbers. cbv zeta.
  assert (Hne : repeat BACKTICK k <> []) by (destruct k; [lia|discriminate]).
  assert (Hfree : forall c, c <> BACKTICK -> ~ In c (repeat BACKTICK k)).
  { intros c Hcb Hin. apply repeat_spec in Hin. congruence. }
  rewrite contains_join; [|exact Hne|apply Hfree; discriminate].
  apply not_true_is_false. intros E. apply existsb_exists in E as (x & Hx & Ex).
  apply in_map_iff in Hx as ([i line] & <- & Hin).
  unfold enumerate in Hin. apply in_combine_r in Hin.
  unfold format_width in Ex.
  change (lit "  " ++ line) with ([SPACE] ++ SPACE :: line) in Ex.
  rewrite app_assoc, contains_app_free in Ex;
    [|exact Hne|apply Hfree; discriminate].
  apply orb_prop in Ex as [Ex|Ex].
  - rewrite no_backtick_no_run in Ex; [discriminate|exact Hk|].
    intros Hb. rewrite !in_app_iff in Hb. destruct Hb as [[Hb|Hb]|[Hb|[]]].
    + apply repeat_spec in Hb. discriminate.
    + apply str_of_nat_digits in Hb. discriminate.
    + discriminate.
  - destruct (splitlines_piece _ _ Hin) as (a & b & Hab).
    rewrite (contains_piece _ _ _ _ _ Hab Ex) in Hc. discriminate.
Qed.

Lemma print_as_xml_sequence (line_numbers : bool) (docs : list (str * str)) :
  forall (st : printer_state) (s : nat),
    let final :=
      fold_left (fun s doc => print_as_xml (fst doc) (snd doc) line_numbers s)
                docs st in
    global_index final = global_index st + Z.of_nat (length docs)
    /\ written final
       = written st
         ++ flat_map
              (fun '(j, doc) =>
                 [ lit "<document index=" ++ [QUOTE]
                     ++ str_of_int (global_index st + Z.of_nat j - Z.of_nat s)
                     ++ [QUOTE] ++ lit ">";
                   lit "<source>" ++ fst doc ++ lit "</source>";
                   lit "<document_content>";
                   (if line_numbers then add_line_numbers (snd doc)
                    else snd doc);
                   lit "</document_content>";
                   lit "</document>" ])
              (combine (seq s (length docs)) docs).
Proof.
  induction docs as [|doc docs IH]; intros st s; cbv zeta.
  - cbn. split; [lia|now rewrite app_nil_r].
  - cbn [fold_left length seq combine flat_map].
    specialize (IH (print_as_xml (fst doc) (snd doc) line_numbers st) (S s)).
    cbv zeta in IH. destruct IH as [IHg IHw]. split.
    + rewrite IHg. unfold print_as_xml. cbn [global_index writer]. lia.
    + rewrite IHw. unfold print_as_xml at 1. unfold writer.
      cbn [written global_index]. rewrite <- !app_assoc. cbn [app].
      replace (global_index st + Z.of_nat s - Z.of_nat s) with (global_index st) by lia.
      do 7 f_equal. apply flat_map_ext. intros [j d].
      unfold print_as_xml. cbn [global_index writer].
      now replace (global_index st + 1 + Z.of_nat j - Z.of_nat (S s))
        with (global_index st + Z.of_nat j - Z.of_nat s) by lia.
Qed.

(** [print_as_markdown] returns, and what it writes around the fence the
    loop stops at. *)
Lemma print_as_markdown_writes
    (path content : str) (line_numbers : bool) (st : printer_state) :
  exists fence lang,
    backticks_loop (S (length content)) content (repeat BACKTICK 3) = Ok fence
    /\ print_as_markdown path content line_numbers st
       = Ok {| written :=
                 written st
                 ++ [ path; fence ++ lang;
                      (if line_numbers then add_line_numbers content else content);
                      fence ];
               global_index := global_index st |}.
Proof.
  unfold print_as_markdown. cbv zeta.
  assert (Hfile : exists file_path,
             (if contains path SIGNATURES_ONLY
              then getitem (split path SIGNATURES_ONLY) 0
              else Ok path) = Ok file_path).
  { destruct (contains path SIGNATURES_ONLY); [|eauto].
    apply getitem_nonempty, split_go_nonempty. }
  destruct Hfile as (file_path & ->). cbn [bind].
  destruct (getitem_nonempty (split file_path [DOT])
              (split_go_nonempty _ _ _ _)) as (_ & extension & ->).
  cbn [bind].
  destruct (backticks_loop_spec content (S (length content)) 3
              ltac:(lia) ltac:(lia)) as (n & _ & Hloop & _).
  change (lit "```") with (repeat BACKTICK 3). rewrite Hloop. cbn [bind].
  exists (repeat BACKTICK n), (dict_get EXT_TO_LANG extension []).
  split; [reflexivity|].
  unfold writer. cbn [written global_index]. now rewrite <- !app_assoc.
Qed.

End PrinterFacts.

Section PrinterClaims.

(** X3. [print_as_markdown] always returns, and what it writes is the path,
    the opening fence followed by the language, the content (numbered when
    asked) and the closing fence.  The fence is the shortest run of three
    backticks or more that is not in the content, and it is not in the
    written content either. *)
Theorem print_as_markdown_fence
    (path content : str) (line_numbers : bool) (st : printer_state) :
  exists n lang,
    (3 <= n)%nat
    /\ print_as_markdown path content line_numbers st
       = Ok {| written :=
                 written st
                 ++ [ path;
                      repeat BACKTICK n ++ lang;
                      (if line_numbers then add_line_numbers content else content);
                      repeat BACKTICK n ];
               global_index := global_index st |}
    /\ contains content (repeat BACKTICK n) = false
    /\ contains (if line_numbers then add_line_numbers content else content)
                (repeat BACKTICK n) = false
    /\ (forall k, (3 <= k < n)%nat ->
                  contains content (repeat BACKTICK k) = true).
Proof.
  destruct (print_as_markdown_writes path content line_numbers st)
    as (fence & lang & Hfence & Hprint).
  destruct (backticks_loop_spec content (S (length content)) 3
              ltac:(lia) ltac:(lia)) as (n & Hn & Hloop & Hnot & Hall).
  rewrite Hloop in Hfence. injection Hfence as <-.
  exists n, lang. split; [exact Hn|]. split; [exact Hprint|].
  split; [exact Hnot|]. split; [|exact Hall].
  destruct line_numbers; [|exact Hnot].
  apply add_line_numbers_backticks; [lia|exact Hnot].
Qed.

(** X4. Documents printed one after the other by [print_as_xml] are
    numbered consecutively from the current [global_index], each in its own
    block of six strings, and the counter ends advanced by their number. *)
Theorem print_as_xml_numbers_documents
    (docs : list (str * str)) (line_numbers : bool) (st : printer_state) :
  let final :=
    fold_left (fun s doc => print_as_xml (fst doc) (snd doc) line_numbers s)
              docs st in
  global_index final = global_index st + Z.of_nat (length docs)
  /\ written final
     = written st
       ++ flat_map
            (fun '(j, doc) =>
               [ lit "<document index=" ++ [QUOTE]
                   ++ str_of_int (global_index st + Z.of_nat j) ++ [QUOTE]
                   ++ lit ">";
                 lit "<source>" ++ fst doc ++ lit "</source>";
                 lit "<document_content>";
                 (if line_numbers then add_line_numbers (snd doc) else snd doc);
                 lit "</document_content>";
                 lit "</document>" ])
            (enumerate docs).
Proof.
  cbv zeta. destruct (print_as_xml_sequence line_numbers docs st 0) as [Hg Hw].
  split; [exact Hg|]. rewrite Hw. f_equal. unfold enumerate.
  apply flat_map_ext. intros [j d]. now rewrite Z.sub_0_r.
Qed.

End PrinterClaims.

(** ** Splitting *)

Section SplitFacts.

Lemma split_char_nil (c : char) (cur : str) :
  split_go [c] [] 0 cur = [cur].
Proof. reflexivity. Qed.

Lemma startswith_nil (s : str) : startswith s [] = true.
Proof. now destruct s. Qed.

Lemma split_char_sep (c : char) (rest cur : str) :
  split_go [c] (c :: rest) 0 cur = cur :: split_go [c] rest 0 [].
Proof.
  cbn [split_go startswith length Nat.sub].
  now rewrite N.eqb_refl, startswith_nil.
Qed.

Lemma split_char_piece (c : char) (p rest : str) :
  ~ In c p ->
  forall cur, split_go [c] (p ++ rest) 0 cur = split_go [c] rest 0 (cur ++ p).
Proof.
  induction p as [|d p IH]; intros Hc cur.
  - now rewrite app_nil_r.
  - cbn [app split_go startswith].
    destruct (N.eqb_spec d c) as [->|Hd]; [exfalso; apply Hc; now left|].
    cbn [andb]. rewrite IH by (intros H; apply Hc; now right).
    now rewrite <- app_assoc.
Qed.

(** The pieces cut at a character do not hold it. *)
Lemma split_char_free (c : char) (s : str) :
  forall cur, ~ In c cur ->
              Forall (fun p => ~ In c p) (split_go [c] s 0 cur).
Proof.
  induction s as [|d s IH]; intros cur Hcur.
  - repeat constructor. exact Hcur.
  - cbn [split_go startswith length Nat.sub].
    destruct (N.eqb_spec d c) as [->|Hd]; cbn [andb].
    + rewrite startswith_nil.
      constructor; [exact Hcur|]. apply IH. intros [].
    + apply IH. intros H. apply in_app_iff in H as [H|[H|[]]]; auto.
Qed.

Lemma split_ws_piece (p rest : str) :
  (forall c, In c p -> isspace c = false) ->
  forall cur, split_ws_go (p ++ rest) cur = split_ws_go rest (cur ++ p).
Proof.
  induction p as [|d p IH]; intros Hp cur.
  - now rewrite app_nil_r.
  - cbn [app split_ws_go]. rewrite (Hp d (or_introl eq_refl)).
    rewrite IH by (intros c Hc; apply Hp; now right).
    now rewrite <- app_assoc.
Qed.

Lemma split_ws_gap (w rest : str) :
  (forall c, In c w -> isspace c = true) ->
  forall cur,
    split_ws_go (w ++ rest) cur
    = match w, cur with
      | _ :: _, _ :: _ => cur :: split_ws_go rest []
      | _ :: _, [] => split_ws_go rest []
      | [], _ => split_ws_go rest cur
      end.
Proof.
  induction w as [|d w IH]; intros Hw cur; [reflexivity|].
  cbn [app split_ws_go]. rewrite (Hw d (or_introl eq_refl)).
  assert (Hw' : forall c, In c w -> isspace c = true)
    by (intros c Hc; apply Hw; now right).
  destruct cur as [|e cur]; cbn [truthy]; rewrite (IH Hw'); now destruct w.
Qed.

(** The pieces cut at whitespace are non-empty and hold no whitespace. *)
Lemma split_ws_pieces (s : str) :
  forall cur, (forall c, In c cur -> isspace c = false) ->
              Forall (fun p => p <> [] /\ forall c, In c p -> isspace c = false)
                     (split_ws_go s cur).
Proof.
  induction s as [|d s IH]; intros cur Hcur; cbn [split_ws_go].
  - destruct cur; [constructor|]. repeat constructor; [discriminate|exact Hcur].
  - destruct (isspace d) eqn:E.
    + destruct cur as [|e cur]; cbn [truthy]; [apply IH; intros c []|].
      constructor; [split; [discriminate|exact Hcur]|]. apply IH. intros c [].
    + apply IH. intros c Hc. apply in_app_iff in Hc as [Hc|[<-|[]]]; auto.
Qed.

End SplitFacts.

Section StdinClaims.

(** X5. [read_paths_from_stdin] never returns an empty path; with the NUL
    separator no path holds a NUL, and without it no path holds a
    whitespace character. *)
Theorem read_paths_from_stdin_paths
    (stdin_isatty : bool) (stdin_content : str) (use_null_separator : bool) :
  Forall (fun p =>
            p <> []
            /\ (if use_null_separator then ~ In NUL p
                else forall c, In c p -> isspace c = false))
         (read_paths_from_stdin stdin_isatty stdin_content use_null_separator).
Proof.
  unfold read_paths_from_stdin. destruct stdin_isatty; [constructor|].
  apply Forall_forall. intros p Hp. apply filter_In in Hp as [Hp Ht].
  split; [destruct p; [discriminate|discriminate]|].
  destruct use_null_separator.
  - pose proof (split_char_free NUL stdin_content [] (fun H => H)) as HF.
    rewrite Forall_forall in HF. now apply HF.
  - pose proof (split_ws_pieces stdin_content [] (fun c H => match H with end)) as HF.
    rewrite Forall_forall in HF. now apply HF.
Qed.

(** X6. With the NUL separator, non-empty paths without NUL are read back
    as they were written, whether a NUL stands between two paths or after
    every path. *)
Theorem read_paths_from_stdin_null_round_trip (paths : list str) :
  Forall (fun p => p <> [] /\ ~ In NUL p) paths ->
  read_paths_from_stdin false (join [NUL] paths) true = paths
  /\ read_paths_from_stdin false (flat_map (fun p => p ++ [NUL]) paths) true
     = paths.
Proof.
  intros H. unfold read_paths_from_stdin, split. split.
  - induction H as [|p paths [Hp Hn] HF IH]; [reflexivity|].
    destruct paths as [|q paths].
    + cbn [join]. pose proof (split_char_piece NUL p [] Hn []) as E.
      rewrite app_nil_r in E. rewrite E. cbn. destruct p; [congruence|reflexivity].
    + change (join [NUL] (p :: q :: paths)) with (p ++ NUL :: join [NUL] (q :: paths)).
      rewrite split_char_piece, split_char_sep by exact Hn.
      cbn [app filter]. rewrite IH. now destruct p.
  - induction H as [|p paths [Hp Hn] HF IH]; [reflexivity|].
    cbn [flat_map]. rewrite <- app_assoc.
    rewrite split_char_piece by exact Hn. cbn [app].
    rewrite split_char_sep. cbn [filter]. rewrite IH. now destruct p.
Qed.

(** X7. Without the NUL separator, non-empty paths without whitespace are
    read back as they were written, whatever non-empty run of whitespace
    stands between them. *)
Theorem read_paths_from_stdin_whitespace_round_trip
    (paths : list str) (gap : str) :
  gap <> [] -> (forall c, In c gap -> isspace c = true) ->
  Forall (fun p => p <> [] /\ forall c, In c p -> isspace c = false) paths ->
  read_paths_from_stdin false (join gap paths) false = paths.
Proof.
  intros Hg Hws H. unfold read_paths_from_stdin, split_ws.
  assert (G : split_ws_go (join gap paths) [] = paths).
  { induction H as [|p paths [Hp Hn] HF IH]; [reflexivity|].
    destruct paths as [|q paths].
    + cbn [join]. pose proof (split_ws_piece p [] Hn []) as E.
      rewrite app_nil_r in E. rewrite E. cbn. destruct p; [congruence|reflexivity].
    + change (join gap (p :: q :: paths)) with (p ++ gap ++ join gap (q :: paths)).
      rewrite split_ws_piece, split_ws_gap by assumption. cbn [app].
      destruct gap as [|g gap]; [congruence|]. destruct p; [congruence|].
      now rewrite IH. }
  rewrite G. clear G. induction H as [|p paths [Hp Hn] HF IH]; [reflexivity|].
  cbn [filter]. destruct p; [congruence|]. cbn [truthy]. now rewrite IH.
Qed.

End StdinClaims.

(** ** Paths and ignore rules *)

Section IgnoreFacts.

Lemma rfind_go_absent (s : str) (c : char) :
  ~ In c s -> forall i found, rfind_go s c i found = found.
Proof.
  induction s as [|d s IH]; intros Hc i found; [reflexivity|].
  cbn [rfind_go]. destruct (N.eqb_spec d c) as [->|Hd].
  - exfalso. apply Hc. now left.
  - apply IH. intros H. apply Hc. now right.
Qed.

Lemma rfind_go_last (x y : str) (c : char) :
  ~ In c y ->
  forall i found, rfind_go (x ++ c :: y) c i found = i + Z.of_nat (length x).
Proof.
  intros Hy. induction x as [|d x IH]; intros i found.
  - cbn [app rfind_go length]. rewrite N.eqb_refl, rfind_go_absent by exact Hy. lia.
  - cbn [app rfind_go length]. rewrite IH. lia.
Qed.

(** The base name of a path is what follows its last slash. *)
Lemma basename_after_slash (x name : str) :
  ~ In SLASH name -> basename (x ++ SLASH :: name) = name.
Proof.
  intros H. unfold basename, rfind. rewrite rfind_go_last by exact H.
  replace (Z.to_nat (0 + Z.of_nat (length x) + 1)) with (length x + 1)%nat by lia.
  rewrite skipn_app, skipn_all2 by lia.
  now replace (length x + 1 - length x)%nat with 1%nat by lia.
Qed.

Lemma basename_no_slash (name : str) :
  ~ In SLASH name -> basename name = name.
Proof.
  intros H. unfold basename, rfind. now rewrite rfind_go_absent by exact H.
Qed.

Lemma endswith_char (a : str) (c : char) :
  endswith_str a [c] = true -> exists a', a = a' ++ [c].
Proof.
  unfold endswith_str. cbn [rev app]. destruct (rev a) as [|d r] eqn:E; [discriminate|].
  cbn [startswith]. intros H. apply andb_prop in H as [H _].
  apply N.eqb_eq in H. subst d. exists (rev r).
  apply (f_equal (@rev _)) in E. rewrite rev_involutive in E. exact E.
Qed.

Lemma basename_path_join (root name : str) :
  ~ In SLASH name -> basename (path_join root name) = name.
Proof.
  intros H. unfold path_join.
  destruct (startswith name [SLASH]) eqn:S.
  - now apply basename_no_slash.
  - destruct (negb (truthy root) || endswith_str root [SLASH]) eqn:C.
    + apply orb_prop in C as [C|C].
      * destruct root; [|discriminate]. now apply basename_no_slash.
      * apply endswith_char in C as (a' & ->). rewrite <- app_assoc.
        now apply basename_after_slash.
    + now apply basename_after_slash.
Qed.

Lemma rstrip_cons (c : char) (t : str) :
  isspace c = false -> rstrip (c :: t) = c :: rstrip t.
Proof.
  intros Hc. unfold rstrip. cbn [rev].
  destruct (lstrip (rev t)) as [|d u] eqn:E.
  - rewrite lstrip_app_ws by (now apply lstrip_nil_iff).
    cbn [lstrip]. now rewrite Hc.
  - rewrite lstrip_app_nonblank by (rewrite E; discriminate).
    rewrite E, rev_app_distr. reflexivity.
Qed.

Lemma rstrip_idem (s : str) : rstrip (rstrip s) = rstrip s.
Proof. unfold rstrip. now rewrite rev_involutive, lstrip_idem. Qed.

Lemma lstrip_strip (s : str) : lstrip (strip s) = strip s.
Proof.
  unfold strip. destruct (lstrip s) as [|c t] eqn:E; [reflexivity|].
  pose proof (lstrip_head _ _ _ E) as Hc.
  rewrite (rstrip_cons _ _ Hc). cbn [lstrip]. now rewrite Hc.
Qed.

Lemma rstrip_strip (s : str) : rstrip (strip s) = strip s.
Proof. unfold strip. apply rstrip_idem. Qed.

(** Stripping a stripped string changes nothing. *)
Lemma strip_idem (s : str) : strip (strip s) = strip s.
Proof. unfold strip at 1. now rewrite lstrip_strip, rstrip_strip. Qed.

End IgnoreFacts.

Section IgnoreClaims.

Variable fnmatch : str -> str -> bool.
Variable isdir : str -> bool.
Variable isfile : str -> bool.
Variable open_lines : str -> lib (list str).

(** X8. A path is ignored under two lists of rules put together exactly
    when it is ignored under one of them: rules added later never bring an
    ignored path back. *)
Theorem should_ignore_app (path : str) (rules more : list str) :
  should_ignore fnmatch isdir path (rules ++ more)
  = should_ignore fnmatch isdir path rules
    || should_ignore fnmatch isdir path more.
Proof.
  induction rules as [|rule rules IH]; [reflexivity|].
  cbn [app should_ignore]. destruct (fnmatch (basename path) rule); [reflexivity|].
  destruct (isdir path && fnmatch (basename path ++ [SLASH]) rule); [reflexivity|].
  exact IH.
Qed.

(** X9. For an entry [name] of a directory [root] ([name] holds no slash),
    the rules are matched against [name] alone, and against [name/] when
    the entry is a directory: the directory does not count. *)
Theorem should_ignore_entry (root name : str) (rules : list str) :
  ~ In SLASH name ->
  should_ignore fnmatch isdir (path_join root name) rules
  = existsb (fun rule =>
               fnmatch name rule
               || (isdir (path_join root name)
                   && fnmatch (name ++ [SLASH]) rule))
            rules.
Proof.
  intros H. induction rules as [|rule rules IH]; [reflexivity|].
  cbn [should_ignore existsb]. rewrite (basename_path_join root name H), IH.
  destruct (fnmatch name rule); [reflexivity|].
  now destruct (isdir (path_join root name) && fnmatch (name ++ [SLASH]) rule).
Qed.

(** X10. Every rule returned by [read_gitignore] is non-empty and has no
    whitespace at either end. *)
Theorem read_gitignore_rules (path : str) (rules : list str) :
  read_gitignore isfile open_lines path = Ok rules ->
  Forall (fun rule =>
            rule <> [] /\ strip rule = rule
            /\ lstrip rule = rule /\ rstrip rule = rule)
         rules.
Proof.
  unfold read_gitignore. cbv zeta.
  destruct (isfile _); [|intros [= <-]; constructor].
  destruct (open_lines _) as [lines|e]; [|discriminate].
  cbn [call bind]. intros [= <-]. apply Forall_forall. intros rule Hr.
  apply in_map_iff in Hr as (line & <- & Hl).
  apply filter_In in Hl as [_ Hl]. apply andb_prop in Hl as [Ht _].
  split; [destruct (strip line); [discriminate|discriminate]|].
  split; [apply strip_idem|]. split; [apply lstrip_strip|apply rstrip_strip].
Qed.

End IgnoreClaims.

(** ** Handling one file *)

Section ProcessFileFacts.



End ProcessFileFacts.

Section ProcessFileClaims.

Variable fnmatch : str -> str -> bool.
Variable open_read : str -> lib str.
Variable ast_parse : str -> lib (list node).

(** X11. A file that is not taken for signature extraction and whose reading
    raises [UnicodeDecodeError] is skipped: the call returns, nothing is
    written, and the last warning names the file. *)
Theorem process_file_skips_undecodable
    (path : str) (signature_patterns : list str)
    (claude_xml markdown line_numbers : bool) (st : run_state) (e : exn) :
  existsb (fun pattern => fnmatch path pattern) signature_patterns
  && endswith_str path (lit ".py") = false ->
  open_read path = Raised e ->
  is_UnicodeDecodeError e = true ->
  exists st' earlier,
    process_file fnmatch open_read ast_parse path signature_patterns
                 claude_xml markdown line_numbers st = Ok st'
    /\ printer st' = printer st
    /\ warnings st'
       = warnings st ++ earlier
         ++ [lit "Warning: Skipping file " ++ path
             ++ lit " due to UnicodeDecodeError"].
Proof.
  intros Hb Ho He. unfold process_file. cbv zeta. rewrite Hb, Ho, He.
  destruct (_ && negb _).
  - eexists _, [_]. split; [reflexivity|]. split; [reflexivity|].
    unfold warn. cbn [warnings]. now rewrite <- app_assoc.
  - eexists _, []. split; [reflexivity|]. split; reflexivity.
Qed.


(** X13. A file that is not taken for signature extraction and whose reading
    raises anything but [UnicodeDecodeError] stops the run: the exception
    leaves [process_file]. *)
Theorem process_file_propagates_other_errors
    (path : str) (signature_patterns : list str)
    (claude_xml markdown line_numbers : bool) (st : run_state) (e : exn) :
  existsb (fun pattern => fnmatch path pattern) signature_patterns
  && endswith_str path (lit ".py") = false ->
  open_read path = Raised e ->
  is_UnicodeDecodeError e = false ->
  process_file fnmatch open_read ast_parse path signature_patterns
               claude_xml markdown line_numbers st = Raise e.
Proof.
  intros Hb Ho He. unfold process_file. cbv zeta. now rewrite Hb, Ho, He.
Qed.

End ProcessFileClaims.

(** ** Selecting the entries of a directory *)

Section SortedFacts.






Lemma filter_filter_and {A : Type} (p q : A -> bool) (l : list A) :
  filter p (filter q l) = filter (fun x => q x && p x) l.
Proof.
  induction l as [|a l IH]; [reflexivity|]. cbn [filter].
  destruct (q a); cbn [filter andb]; [destruct (p a)|]; now rewrite IH.
Qed.

Lemma filter_all {A : Type} (p : A -> bool) (l : list A) :
  (forall x, p x = true) -> filter p l = l.
Proof.
  intros H. induction l as [|a l IH]; [reflexivity|].
  cbn [filter]. now rewrite H, IH.
Qed.

End SortedFacts.

Section SelectFacts.

Variable fnmatch : str -> str -> bool.
Variable isdir : str -> bool.
Variable isfile : str -> bool.
Variable open_lines : str -> lib (list str).

Lemma selection_eq (dirs dirs' files files' rules : list str) :
  dirs = dirs' -> files = files' ->
  @Ok (list str * list str * list str) (dirs, sorted files, rules)
  = Ok (dirs', sorted files', rules).
Proof. now intros -> ->. Qed.

(** One turn of the loop as a single pass over the directories and a single
    pass over the files. *)
Lemma select_entries_eq (root : str) (dirs files extensions : list str)
    (include_hidden ignore_files_only ignore_gitignore : bool)
    (gitignore_rules ignore_patterns : list str) :
  select_entries fnmatch isdir isfile open_lines root dirs files extensions
                 include_hidden ignore_files_only ignore_gitignore
                 gitignore_rules ignore_patterns
  = (new <- (if ignore_gitignore then Ok []
             else read_gitignore isfile open_lines root) ;;
     let rules := gitignore_rules ++ new in
     Ok (filter (fun d =>
                   (include_hidden || negb (startswith d [DOT]))
                   && (ignore_gitignore
                       || negb (should_ignore fnmatch isdir (path_join root d) rules))
                   && (ignore_files_only
                       || negb (existsb (fun pattern => fnmatch d pattern)
                                        ignore_patterns)))
                dirs,
         sorted
           (filter (fun f =>
                      (include_hidden || negb (startswith f [DOT]))
                      && (ignore_gitignore
                          || negb (should_ignore fnmatch isdir (path_join root f) rules))
                      && negb (existsb (fun pattern => fnmatch f pattern)
                                       ignore_patterns)
                      && match extensions with
                         | [] => true
                         | _ :: _ => existsb (fun e => endswith_str f e) extensions
                         end)
                   files),
         rules)).
Proof.
  unfold select_entries.
  destruct include_hidden, ignore_gitignore; cbn [negb bind orb andb];
    try (destruct (read_gitignore isfile open_lines root) as [new|e|];
         cbn [bind]; [|reflexivity|reflexivity]);
    rewrite ?app_nil_r;
    destruct ignore_patterns as [|pat pats], ignore_files_only,
             extensions as [|ext exts];
    cbn [negb orb andb existsb];
    repeat rewrite filter_filter_and;
    apply selection_eq;
    first [ apply filter_ext; intros x; btauto
          | symmetry; apply filter_all; intros x; btauto ].
Qed.

End SelectFacts.

Section SelectClaims.

Variable fnmatch : str -> str -> bool.
Variable isdir : str -> bool.
Variable isfile : str -> bool.
Variable open_lines : str -> lib (list str).


(** X15. One turn of the directory loop keeps the directories in their
    order and drops exactly those that are hidden (unless hidden files are
    included), ignored by the rules in force after the turn (unless
    .gitignore files are ignored) or matched by an ignore pattern (unless
    the patterns are for files only).  The rules in force only grow: by the
    rules of the directory's .gitignore, and by nothing when .gitignore
    files are ignored. *)
Theorem select_entries_dirs
    (root : str) (dirs files extensions : list str)
    (include_hidden ignore_files_only ignore_gitignore : bool)
    (gitignore_rules ignore_patterns : list str)
    (dirs' files' rules' : list str) :
  select_entries fnmatch isdir isfile open_lines root dirs files extensions
                 include_hidden ignore_files_only ignore_gitignore
                 gitignore_rules ignore_patterns
  = Ok (dirs', files', rules') ->
  (exists new,
      rules' = gitignore_rules ++ new
      /\ (ignore_gitignore = true -> new = [])
      /\ (ignore_gitignore = false ->
          read_gitignore isfile open_lines root = Ok new))
  /\ dirs'
     = filter (fun d =>
                 (include_hidden || negb (startswith d [DOT]))
                 && (ignore_gitignore
                     || negb (should_ignore fnmatch isdir (path_join root d) rules'))
                 && (ignore_files_only
                     || negb (existsb (fun pattern => fnmatch d pattern)
                                      ignore_patterns)))
              dirs.
Proof.
  rewrite select_entries_eq.
  destruct (if ignore_gitignore then Ok [] else read_gitignore isfile open_lines root)
    as [new|e|] eqn:E; cbn [bind]; try discriminate.
  intros [= <- <- <-]. split; [|reflexivity].
  exists new. split; [reflexivity|].
  destruct ignore_gitignore.
  - injection E as <-. split; [reflexivity|discriminate].
  - split; [discriminate|intros _; exact E].
Qed.

End SelectClaims.

(** ** The language of a Markdown fence *)

Section LanguageFacts.

Lemma startswith_app_long (q r m : str) :
  (length m <= length q)%nat ->
  startswith (q ++ r) m = true -> startswith q m = true.
Proof.
  revert q. induction m as [|c m IH]; intros q Hl H; [apply startswith_nil|].
  destruct q as [|d q]; [cbn in Hl; lia|].
  cbn [app startswith] in *. apply andb_prop in H as [H1 H2].
  rewrite H1. cbn [andb]. apply IH; [cbn in Hl; lia|exact H2].
Qed.

Lemma startswith_contains (s m : str) :
  startswith s m = true -> contains s m = true.
Proof. intros H. destruct s; cbn [contains]; now rewrite H. Qed.

Lemma contains_tail (c : char) (s m : str) :
  contains (c :: s) m = false -> contains s m = false.
Proof. cbn [contains]. intros H. now apply orb_false_elim in H. Qed.

Lemma startswith_nth (m : str) :
  forall s i x, startswith s m = true -> nth_error m i = Some x ->
                nth_error s i = Some x.
Proof.
  induction m as [|c m IH]; intros s i x H Hx; [destruct i; discriminate|].
  destruct s as [|d s]; [discriminate|]. cbn [startswith] in H.
  apply andb_prop in H as [H1 H2]. apply N.eqb_eq in H1. subst d.
  destruct i as [|i]; [exact Hx|]. cbn [nth_error] in *. now apply IH.
Qed.

(** Where the label holds a space. *)
Lemma label_spaces (j : nat) :
  nth_error SIGNATURES_ONLY j = Some SPACE -> j = 0%nat \/ j = 12%nat.
Proof.
  do 18 (destruct j as [|j]; [cbn; intros H; try discriminate; auto|]).
  destruct j; discriminate.
Qed.

(** The label does not overlap itself: it starts nowhere in a text followed
    by the label, unless the text holds it. *)
Lemma label_starts_late (q : str) :
  q <> [] -> contains q SIGNATURES_ONLY = false ->
  startswith (q ++ SIGNATURES_ONLY) SIGNATURES_ONLY = false.
Proof.
  intros Hq Hc.
  destruct (startswith (q ++ SIGNATURES_ONLY) SIGNATURES_ONLY) eqn:H;
    [exfalso|reflexivity].
  destruct (Nat.le_gt_cases (length SIGNATURES_ONLY) (length q)) as [L|L].
  - apply startswith_app_long in H; [|exact L].
    apply startswith_contains in H. congruence.
  - change (length SIGNATURES_ONLY) with 18%nat in L.
    assert (Hk : length q <> 0%nat) by (destruct q; [congruence|discriminate]).
    assert (E0 : nth_error (q ++ SIGNATURES_ONLY) (length q) = Some SPACE)
      by now rewrite nth_error_app2, Nat.sub_diag by lia.
    destruct (nth_error SIGNATURES_ONLY (length q)) as [x|] eqn:Ex.
    2:{ apply nth_error_None in Ex.
        change (length SIGNATURES_ONLY) with 18%nat in Ex. lia. }
    pose proof (startswith_nth _ _ _ _ H Ex) as E1.
    rewrite E0 in E1. injection E1 as <-.
    apply label_spaces in Ex as [Ex|Ex]; [lia|].
    assert (E2 : nth_error (q ++ SIGNATURES_ONLY) 13 = Some LPAREN)
      by (rewrite nth_error_app2 by lia; now rewrite Ex).
    pose proof (startswith_nth SIGNATURES_ONLY _ 13 111%N H eq_refl) as E3.
    rewrite E2 in E3. discriminate.
Qed.

Lemma split_go_step (sep s cur : str) (c : char) :
  startswith (c :: s) sep = false ->
  split_go sep (c :: s) 0 cur = split_go sep s 0 (cur ++ [c]).
Proof. intros H. cbn [split_go]. now rewrite H. Qed.

(** The first piece cut at a separator that does not overlap itself. *)
Lemma split_first_piece (sep : str) :
  (forall q, q <> [] -> contains q sep = false ->
             startswith (q ++ sep) sep = false) ->
  forall p, contains p sep = false ->
  forall cur, exists more, split_go sep (p ++ sep) 0 cur = (cur ++ p) :: more.
Proof.
  intros Hsep. induction p as [|c p IH]; intros Hc cur.
  - rewrite app_nil_r. cbn [app].
    destruct sep as [|d sep']; [now eexists|].
    cbn [split_go].
    replace (startswith (d :: sep') (d :: sep')) with true; [now eexists|].
    clear. symmetry. generalize (d :: sep'). intros m.
    induction m as [|e m IH]; [reflexivity|].
    cbn [startswith]. now rewrite N.eqb_refl.
  - pose proof (Hsep (c :: p) ltac:(discriminate) Hc) as Hs.
    cbn [app] in *. rewrite (split_go_step _ _ _ _ Hs).
    destruct (IH (contains_tail _ _ _ Hc) (cur ++ [c])) as (more & ->).
    exists more. now rewrite <- app_assoc.
Qed.

Lemma split_label_first (p : str) :
  contains p SIGNATURES_ONLY = false ->
  forall cur, exists more,
    split_go SIGNATURES_ONLY (p ++ SIGNATURES_ONLY) 0 cur = (cur ++ p) :: more.
Proof. exact (split_first_piece SIGNATURES_ONLY label_starts_late p). Qed.

Lemma split_char_last (c : char) (ext : str) :
  ~ In c ext ->
  forall x cur, exists pieces,
    split_go [c] (x ++ c :: ext) 0 cur = pieces ++ [ext].
Proof.
  intros Hc. induction x as [|d x IH]; intros cur.
  - exists [cur]. cbn [app]. rewrite split_char_sep.
    pose proof (split_char_piece c ext [] Hc []) as E.
    rewrite app_nil_r in E. now rewrite E.
  - cbn [app]. destruct (N.eq_dec d c) as [->|Hd].
    + rewrite split_char_sep. destruct (IH []) as (pieces & ->).
      now exists (cur :: pieces).
    + pose proof (split_char_piece c [d] (x ++ c :: ext)) as E.
      cbn [app] in E. rewrite E by (intros [H|[]]; congruence).
      apply IH.
Qed.

Lemma contains_label_app (p : str) :
  contains (p ++ SIGNATURES_ONLY) SIGNATURES_ONLY = true.
Proof. apply contains_iff. exists p, []. now rewrite app_nil_r. Qed.

(** What [print_as_markdown] writes once the text before the label is
    known. *)
Lemma print_as_markdown_lang
    (path stem ext content : str) (line_numbers : bool) (st : printer_state)
    (n : nat) :
  ~ In DOT ext ->
  (if contains path SIGNATURES_ONLY
   then getitem (split path SIGNATURES_ONLY) 0
   else Ok path) = Ok (stem ++ DOT :: ext) ->
  backticks_loop (S (length content)) content (repeat BACKTICK 3)
  = Ok (repeat BACKTICK n) ->
    print_as_markdown path content line_numbers st
    = Ok {| written :=
              written st
              ++ [ path;
                   repeat BACKTICK n ++ dict_get EXT_TO_LANG ext [];
                   (if line_numbers then add_line_numbers content else content);
                   repeat BACKTICK n ];
            global_index := global_index st |}.
Proof.
  intros Hext Hfile Hloop. unfold print_as_markdown. cbv zeta.
  rewrite Hfile. cbn [bind]. unfold split.
  destruct (split_char_last DOT ext Hext stem []) as (pieces & ->).
  rewrite getitem_last. cbn [bind].
  change (lit "```") with (repeat BACKTICK 3). rewrite Hloop. cbn [bind].
  unfold writer. cbn [written global_index]. now rewrite <- !app_assoc.
Qed.

End LanguageFacts.

Section LanguageClaims.

(** X16. In Markdown, a file named [stem.ext] whose path does not hold the
    label [ (signatures only)] gets the language that [EXT_TO_LANG] gives for
    [ext], the text after the last dot (none when [ext] is not in the
    table), and the label put after such a path changes neither the language
    nor the fence. *)
Theorem print_as_markdown_language
    (stem ext content : str) (line_numbers : bool) (st : printer_state) :
  ~ In DOT ext ->
  contains (stem ++ DOT :: ext) SIGNATURES_ONLY = false ->
  exists n,
    print_as_markdown (stem ++ DOT :: ext) content line_numbers st
    = Ok {| written :=
              written st
              ++ [ stem ++ DOT :: ext;
                   repeat BACKTICK n ++ dict_get EXT_TO_LANG ext [];
                   (if line_numbers then add_line_numbers content else content);
                   repeat BACKTICK n ];
            global_index := global_index st |}
    /\ print_as_markdown ((stem ++ DOT :: ext) ++ lit " (signatures only)")
                         content line_numbers st
       = Ok {| written :=
                 written st
                 ++ [ (stem ++ DOT :: ext) ++ lit " (signatures only)";
                      repeat BACKTICK n ++ dict_get EXT_TO_LANG ext [];
                      (if line_numbers then add_line_numbers content else content);
                      repeat BACKTICK n ];
               global_index := global_index st |}.
Proof.
  intros Hext Hc.
  destruct (backticks_loop_spec content (S (length content)) 3
              ltac:(lia) ltac:(lia)) as (n & _ & Hloop & _).
  exists n. split.
  - apply (print_as_markdown_lang _ stem ext); [exact Hext| |exact Hloop].
    now rewrite Hc.
  - change (lit " (signatures only)") with SIGNATURES_ONLY.
    apply (print_as_markdown_lang _ stem ext); [exact Hext| |exact Hloop].
    rewrite contains_label_app. unfold split.
    destruct (split_label_first _ Hc []) as (more & ->).
    now apply (getitem_nat _ 0).
Qed.

End LanguageClaims.

(** ** One directory *)

Section WalkTurnClaims.

Variable fnmatch : str -> str -> bool.
Variable isdir : str -> bool.
Variable isfile : str -> bool.
Variable open_lines : str -> lib (list str).
Variable open_read : str -> lib str.
Variable ast_parse : str -> lib (list node).




End WalkTurnClaims.

(** ** The further properties on the small directory *)

Lemma add_line_numbers_aligned_example :
  exists pad,
    nth_error (splitlines (add_line_numbers (lit "one" ++ [LF] ++ lit "two"))) 1
    = Some (pad ++ str_of_nat 2 ++ lit "  " ++ lit "two").
Proof.
  destruct (add_line_numbers_aligned (lit "one" ++ [LF] ++ lit "two") 1
              (lit "two") eq_refl)
    as (pad & H & _).
  exists pad. exact H.
Defined.

Lemma read_paths_from_stdin_null_round_trip_example :
  read_paths_from_stdin false (lit "a b" ++ [NUL] ++ lit "c" ++ [NUL]) true
  = [lit "a b"; lit "c"].
Proof.
  destruct (read_paths_from_stdin_null_round_trip [lit "a b"; lit "c"])
    as [_ H].
  - repeat constructor; try discriminate;
      intros H; cbn in H; intuition discriminate.
  - exact H.
Defined.

Lemma read_paths_from_stdin_whitespace_round_trip_example :
  read_paths_from_stdin false (lit "src/a.py" ++ [LF] ++ lit "b.txt") false
  = [lit "src/a.py"; lit "b.txt"].
Proof.
  apply (read_paths_from_stdin_whitespace_round_trip
           [lit "src/a.py"; lit "b.txt"] [LF]).
  - discriminate.
  - intros c [<-|[]]. reflexivity.
  - repeat constructor; try discriminate;
      intros c H; cbn in H;
      repeat (destruct H as [<-|H]; [reflexivity|]); destruct H.
Defined.

Lemma should_ignore_entry_example :
  should_ignore Demo.matcher Demo.isdir (path_join (lit "proj") (lit "out.log"))
                [lit "out.log"]
  = true.
Proof.
  rewrite (should_ignore_entry Demo.matcher Demo.isdir (lit "proj")
             (lit "out.log") [lit "out.log"]).
  - reflexivity.
  - intros H. cbn in H. intuition discriminate.
Defined.

Lemma read_gitignore_rules_example :
  Forall (fun rule => rule <> [] /\ strip rule = rule
                      /\ lstrip rule = rule /\ rstrip rule = rule)
         [lit "out.log"].
Proof.
  apply (read_gitignore_rules Demo.isfile Demo.open_lines (lit "proj")).
  reflexivity.
Defined.

Lemma process_file_skips_undecodable_example :
  exists st',
    process_file Demo.matcher Demo.open_undecodable Example.ast_parse
                 (lit "proj/a.bin") [] false false false Demo.start
    = Ok st'
    /\ printer st' = printer Demo.start.
Proof.
  destruct (process_file_skips_undecodable
              Demo.matcher Demo.open_undecodable Example.ast_parse
              (lit "proj/a.bin") [] false false false Demo.start
              (Exn "UnicodeDecodeError"
                   (lit "'utf-8' codec can't decode byte 0xff in position 0"))
              eq_refl eq_refl eq_refl)
    as (st' & earlier & H & Hp & _).
  exists st'. split; assumption.
Defined.


Lemma process_file_propagates_other_errors_example :
  process_file Demo.matcher Example.open_denied Example.ast_parse
               (lit "x.py") [] false false false Demo.start
  = Raise (Exn "PermissionError" (lit "[Errno 13] Permission denied: 'x.py'")).
Proof.
  apply (process_file_propagates_other_errors
           Demo.matcher Example.open_denied Example.ast_parse
           (lit "x.py") [] false false false Demo.start);
    reflexivity.
Defined.

Lemma demo_selection :
  select_entries Demo.matcher Demo.isdir Demo.isfile Demo.open_lines
                 (lit "proj") Demo.dirs Demo.files [lit ".py"]
                 false false false [] []
  = Ok ([lit "src"], [lit "a.py"; lit "b.py"], [lit "out.log"]).
Proof. reflexivity. Defined.


Lemma select_entries_dirs_example :
  exists new, [lit "out.log"] = [] ++ new
              /\ read_gitignore Demo.isfile Demo.open_lines (lit "proj") = Ok new.
Proof.
  destruct (select_entries_dirs
              Demo.matcher Demo.isdir Demo.isfile Demo.open_lines
              (lit "proj") Demo.dirs Demo.files [lit ".py"]
              false false false [] [] _ _ _ demo_selection)
    as [(new & Hnew & _ & Hread) _].
  exists new. split; [exact Hnew|]. now apply Hread.
Defined.

Lemma print_as_markdown_language_example :
  exists n,
    print_as_markdown (lit "src/a.py (signatures only)") (lit "pass") false
                      (printer Demo.start)
    = Ok {| written := [ lit "src/a.py (signatures only)";
                         repeat BACKTICK n ++ lit "python";
                         lit "pass";
                         repeat BACKTICK n ];
            global_index := 1 |}.
Proof.
  destruct (print_as_markdown_language (lit "src/a") (lit "py") (lit "pass")
              false (printer Demo.start))
    as (n & _ & H).
  - intros H. cbn in H. intuition discriminate.
  - reflexivity.
  - exists n. exact H.
Defined.

